(** * Search interaction controller of the publication-search front end

    A shallow embedding of the React components of the front end
    ([SearchComponent], its [Pagination] sub-component, the [ApiService]
    executor and [DocumentClassification.handleClassify]) together with the
    properties of the behavioural specification that concern them.

    Conventions of the embedding:
    - a JavaScript string is the list of its UTF-16 code units;
    - a JavaScript number is [NaN] or a finite rational; page numbers,
      counts and clock readings, which are integers in every run, are [Z];
    - every [useState] cell is a field of a record, every setter rebuilds
      the record, a handler is a command that threads the record and
      appends to a log of observable effects (network requests, debounce
      emissions, parent notifications, scrolling);
    - [setTimeout]/[clearTimeout] act on an explicit timer table and
      [await] splits [searchPublications] into the part that runs when the
      request is issued and the part that runs when its promise settles. *)

From Stdlib Require Import String Ascii DecimalString ZArith QArith Bool List Lia.
From Stdlib Require Import Sorted Permutation.
Import ListNotations.
Local Open Scope Z_scope.

(** ** JavaScript values used by the components *)

Module JS.

(** A string, as the sequence of its UTF-16 code units. *)
Definition jsstring := list N.

(** The code units of an ASCII literal of the source. *)
Definition lit (s : string) : jsstring :=
  map N_of_ascii (list_ascii_of_string s).

Fixpoint str_eqb (a b : jsstring) : bool :=
  match a, b with
  | [], [] => true
  | x :: a', y :: b' => N.eqb x y && str_eqb a' b'
  | _, _ => false
  end.

(** [a < b] on strings: lexicographic on code units, a proper prefix
    being smaller. *)
Fixpoint str_lt (a b : jsstring) : bool :=
  match a, b with
  | _, [] => false
  | [], _ :: _ => true
  | x :: a', y :: b' =>
      if N.ltb x y then true
      else if N.ltb y x then false
      else str_lt a' b'
  end.

Definition str_gt (a b : jsstring) : bool := str_lt b a.

(** WhiteSpace and LineTerminator code units, the ones [String.prototype.trim]
    strips: TAB, LF, VT, FF, CR, SP, NBSP, U+1680, U+2000..U+200A, U+2028,
    U+2029, U+202F, U+205F, U+3000 and U+FEFF. *)
Definition is_whitespace (c : N) : bool :=
  ((9 <=? c) && (c <=? 13) || (c =? 32) || (c =? 160) || (c =? 5760)
   || (8192 <=? c) && (c <=? 8202) || (c =? 8232) || (c =? 8233)
   || (c =? 8239) || (c =? 8287) || (c =? 12288) || (c =? 65279))%N.

Fixpoint trimStart (s : jsstring) : jsstring :=
  match s with
  | c :: s' => if is_whitespace c then trimStart s' else s
  | [] => []
  end.

Definition trimEnd (s : jsstring) : jsstring := rev (trimStart (rev s)).

(** [s.trim()] *)
Definition trim (s : jsstring) : jsstring := trimEnd (trimStart s).

(** Truthiness of a string: every string but the empty one. *)
Definition truthy (s : jsstring) : bool :=
  match s with [] => false | _ :: _ => true end.

(** A number: [NaN] or a finite value. *)
Inductive number : Type :=
| NaN
| Num (q : Q).

(** [a < b] and [a > b] on numbers; every comparison with [NaN] is false. *)
Definition num_lt (a b : number) : bool :=
  match a, b with
  | Num x, Num y => match Qcompare x y with Lt => true | _ => false end
  | _, _ => false
  end.

Definition num_gt (a b : number) : bool := num_lt b a.

(** [n.toString()] of an integer, in decimal. *)
Definition Number_toString (n : Z) : jsstring :=
  lit (NilZero.string_of_int (Z.to_int n)).

(** A thrown value: an [Error] instance with its [message], or anything
    else. *)
Inductive thrown : Type :=
| ErrorObject (message : jsstring)
| OtherValue.

End JS.
Import JS.

(** ** The pagination model: [Pagination.getVisiblePages] *)

Module Pagination.

(** An entry of the page list, [number | string] in the source: a page
    number or the string ["..."]. *)
Inductive PageEntry : Type :=
| PageNumber (n : Z)
| Ellipsis.

(** [for (let i = 1; i <= totalPages; i++) pages.push(i)], from the
    current value of [i]; [fuel] bounds the number of iterations. *)
Fixpoint push_upto (fuel : nat) (i totalPages : Z) (pages : list PageEntry)
  : list PageEntry :=
  match fuel with
  | O => pages
  | S fuel' =>
      if i <=? totalPages
      then push_upto fuel' (i + 1) totalPages (pages ++ [PageNumber i])
      else pages
  end.

Definition getVisiblePages (currentPage totalPages : Z) : list PageEntry :=
  let showEllipsis := totalPages >? 7 in
  if negb showEllipsis then
    push_upto (Z.to_nat totalPages) 1 totalPages []
  else if currentPage <=? 4 then
    [PageNumber 1; PageNumber 2; PageNumber 3; PageNumber 4; PageNumber 5;
     Ellipsis; PageNumber totalPages]
  else if currentPage >=? totalPages - 3 then
    [PageNumber 1; Ellipsis; PageNumber (totalPages - 4);
     PageNumber (totalPages - 3); PageNumber (totalPages - 2);
     PageNumber (totalPages - 1); PageNumber totalPages]
  else
    [PageNumber 1; Ellipsis; PageNumber (currentPage - 1);
     PageNumber currentPage; PageNumber (currentPage + 1); Ellipsis;
     PageNumber totalPages].

(** The specification's [visiblePages], written from its four cases. *)
Definition all_pages (total : Z) : list PageEntry :=
  map (fun k => PageNumber (Z.of_nat k)) (seq 1 (Z.to_nat total)).

Definition visiblePages (current total : Z) : list PageEntry :=
  if total <=? 7 then all_pages total
  else if current <=? 4 then
    map PageNumber [1; 2; 3; 4; 5] ++ [Ellipsis; PageNumber total]
  else if total - 3 <=? current then
    [PageNumber 1; Ellipsis]
      ++ map PageNumber [total - 4; total - 3; total - 2; total - 1; total]
  else
    [PageNumber 1; Ellipsis]
      ++ map PageNumber [current - 1; current; current + 1]
      ++ [Ellipsis; PageNumber total].

End Pagination.

(** ** What the engine and the parent component supply

    [Date.parse] on other than ISO strings, [String.prototype.toLowerCase]
    and the order in which [Array.prototype.sort] calls its comparator are
    the engine's; [onResultsChange] is an optional prop of the component.
    The controller is written over any such environment. *)

Class Environment : Type := {
  (** [Date.parse] of a non-empty string: the time value, or [NaN] when the
      string is not recognised. *)
  Date_parse : jsstring -> number;
  toLowerCase : jsstring -> jsstring;
  (** [array.sort(comparefn)], on a fresh copy of the array. *)
  Array_sort : forall A : Type, (A -> A -> Z) -> list A -> list A;
  (** Whether the parent passed the [onResultsChange] prop. *)
  onResultsChange : bool
}.

(** ** [Array.prototype.sort] of V8 (Chrome, Edge, Node)

    The engine sorts with TimSort. An array of fewer than 64 elements is a
    single run: [CountAndMakeRun] takes the longest ascending or strictly
    descending prefix, reversing a descending one, and
    [BinaryInsertionSort] inserts the remaining elements one by one. The
    merging of several runs, which only longer arrays reach, is not
    modelled; a result page holds [pageSize = 10] publications. *)

Module V8.

Section TimSort.
Context {A : Type} (comparefn : A -> A -> Z).

(** The loop of [CountAndMakeRun]: how many elements after
    [previousElement] continue the run. *)
Fixpoint run_tail (isDescending : bool) (previousElement : A) (rest : list A)
  : nat :=
  match rest with
  | [] => 0
  | currentElement :: rest' =>
      let order := comparefn currentElement previousElement in
      if (if isDescending then order >=? 0 else order <? 0) then 0%nat
      else S (run_tail isDescending currentElement rest')
  end.

(** The run length and the work array after the run was made ascending. *)
Definition CountAndMakeRun (workArray : list A) : nat * list A :=
  match workArray with
  | elementHigh :: elementLow :: rest =>
      let order := comparefn elementLow elementHigh in
      let isDescending := order <? 0 in
      let runLength := (2 + run_tail isDescending elementLow rest)%nat in
      (runLength,
       if isDescending
       then rev (firstn runLength workArray) ++ skipn runLength workArray
       else workArray)
  | _ => (length workArray, workArray)
  end.

(** The binary search of [BinaryInsertionSort] for the place of [pivot] in
    the sorted prefix: [order < 0] moves [right], anything else moves
    [left]. *)
Fixpoint insertion_point (fuel : nat) (pivot : A) (sorted : list A)
  (left right : nat) : nat :=
  match fuel with
  | O => left
  | S fuel' =>
      if (left <? right)%nat then
        let mid := (left + Nat.div2 (right - left))%nat in
        let order := comparefn pivot (nth mid sorted pivot) in
        if order <? 0
        then insertion_point fuel' pivot sorted left mid
        else insertion_point fuel' pivot sorted (mid + 1)%nat right
      else left
  end.

Fixpoint BinaryInsertionSort (sorted rest : list A) : list A :=
  match rest with
  | [] => sorted
  | pivot :: rest' =>
      let left :=
        insertion_point (length sorted) pivot sorted 0 (length sorted) in
      BinaryInsertionSort (firstn left sorted ++ pivot :: skipn left sorted)
                          rest'
  end.

Definition ArrayTimSort (array : list A) : list A :=
  if (length array <? 2)%nat then array
  else
    let (runLength, workArray) := CountAndMakeRun array in
    BinaryInsertionSort (firstn runLength workArray)
                        (skipn runLength workArray).

End TimSort.

(** An environment whose sort is V8's. *)
Definition environment (parse : jsstring -> number)
  (lower : jsstring -> jsstring) (notify : bool) : Environment :=
  {| Date_parse := parse;
     toLowerCase := lower;
     Array_sort := @ArrayTimSort;
     onResultsChange := notify |}.

End V8.

(** ** The search executor: [ApiService.searchPublications] *)

Module Api.

Record Publication : Type := {
  title : jsstring;
  link : jsstring;
  authors : list jsstring;
  published_date : jsstring;
  abstract : jsstring;
  score : number
}.

Record SearchResponse : Type := {
  results : list Publication;
  total : Z;
  page : Z;
  size : Z;
  total_pages : Z
}.

(** What [response.json()] gives: the decoded payload or a thrown error. *)
Inductive Body : Type :=
| Json (data : SearchResponse)
| Malformed (e : thrown).

(** What [fetch] gives: a rejection (transport failure) or a response with
    its status. *)
Inductive FetchOutcome : Type :=
| NetworkFailure (e : thrown)
| Response (status : Z) (body : Body).

(** [response.ok]: the status is in the range 200-299. *)
Definition ok (status : Z) : bool := (200 <=? status) && (status <=? 299).

(** How the promise of [searchPublications] settles. *)
Inductive Settled : Type :=
| Fulfilled (data : SearchResponse)
| Rejected (e : thrown).

Definition searchPublications (response : FetchOutcome) : Settled :=
  match response with
  | NetworkFailure e => Rejected e
  | Response status body =>
      if negb (ok status) then
        Rejected (ErrorObject (lit "HTTP error! status: "
                                 ++ Number_toString status))
      else
        match body with
        | Json data => Fulfilled data
        | Malformed e => Rejected e
        end
  end.

End Api.

(** ** The search session controller: [SearchComponent] *)

Module Search.

Import Api.

Inductive SortOrder : Type := asc | desc.

(** An armed timer of the runtime: its handle, the clock value at which it
    expires and the [query] its callback closed over. *)
Record Timer : Type := {
  handle : nat;
  due : Z;
  closure_query : jsstring
}.

(** A call of [searchPublications] suspended at its [await]. *)
Record Pending : Type := {
  request : nat;
  searchQuery : jsstring;
  requested_page : Z;
  startTime : Z
}.

(** The component instance: its [useState] cells, its ref, and the part of
    the runtime it lives in (clock in milliseconds, timer table in the
    order the timers were armed, suspended calls). *)
Record State : Type := {
  query : jsstring;
  debouncedQuery : jsstring;
  results : list Publication;
  loading : bool;
  currentPage : Z;
  totalPages : Z;
  totalResults : Z;
  error : option jsstring;
  searchTime : Q;
  sortBy : jsstring;
  sortOrder : SortOrder;
  debounceRef : option nat;
  now : Z;
  timers : list Timer;
  next_handle : nat;
  pending : list Pending;
  next_request : nat
}.

(** [const [pageSize] = useState(10)]: never set. *)
Definition pageSize : Z := 10.

(** The delay passed to [setTimeout]. *)
Definition debounce_delay : Z := 4000.

Definition setQuery (v : jsstring) (s : State) : State :=
  let '(Build_State _ dq r l cp tp tr e st sb so ref nw ts nh pd nr) := s in
  Build_State v dq r l cp tp tr e st sb so ref nw ts nh pd nr.

Definition setDebouncedQuery (v : jsstring) (s : State) : State :=
  let '(Build_State q _ r l cp tp tr e st sb so ref nw ts nh pd nr) := s in
  Build_State q v r l cp tp tr e st sb so ref nw ts nh pd nr.

Definition setResults (v : list Publication) (s : State) : State :=
  let '(Build_State q dq _ l cp tp tr e st sb so ref nw ts nh pd nr) := s in
  Build_State q dq v l cp tp tr e st sb so ref nw ts nh pd nr.

Definition setLoading (v : bool) (s : State) : State :=
  let '(Build_State q dq r _ cp tp tr e st sb so ref nw ts nh pd nr) := s in
  Build_State q dq r v cp tp tr e st sb so ref nw ts nh pd nr.

Definition setCurrentPage (v : Z) (s : State) : State :=
  let '(Build_State q dq r l _ tp tr e st sb so ref nw ts nh pd nr) := s in
  Build_State q dq r l v tp tr e st sb so ref nw ts nh pd nr.

Definition setTotalPages (v : Z) (s : State) : State :=
  let '(Build_State q dq r l cp _ tr e st sb so ref nw ts nh pd nr) := s in
  Build_State q dq r l cp v tr e st sb so ref nw ts nh pd nr.

Definition setTotalResults (v : Z) (s : State) : State :=
  let '(Build_State q dq r l cp tp _ e st sb so ref nw ts nh pd nr) := s in
  Build_State q dq r l cp tp v e st sb so ref nw ts nh pd nr.

Definition setError (v : option jsstring) (s : State) : State :=
  let '(Build_State q dq r l cp tp tr _ st sb so ref nw ts nh pd nr) := s in
  Build_State q dq r l cp tp tr v st sb so ref nw ts nh pd nr.

Definition setSearchTime (v : Q) (s : State) : State :=
  let '(Build_State q dq r l cp tp tr e _ sb so ref nw ts nh pd nr) := s in
  Build_State q dq r l cp tp tr e v sb so ref nw ts nh pd nr.

Definition setSortBy (v : jsstring) (s : State) : State :=
  let '(Build_State q dq r l cp tp tr e st _ so ref nw ts nh pd nr) := s in
  Build_State q dq r l cp tp tr e st v so ref nw ts nh pd nr.

Definition setSortOrder (v : SortOrder) (s : State) : State :=
  let '(Build_State q dq r l cp tp tr e st sb _ ref nw ts nh pd nr) := s in
  Build_State q dq r l cp tp tr e st sb v ref nw ts nh pd nr.

(** The runtime's side: the ref, the clock, the timer table and the
    suspended calls. *)
Definition set_debounceRef (v : option nat) (s : State) : State :=
  let '(Build_State q dq r l cp tp tr e st sb so _ nw ts nh pd nr) := s in
  Build_State q dq r l cp tp tr e st sb so v nw ts nh pd nr.

Definition set_now (v : Z) (s : State) : State :=
  let '(Build_State q dq r l cp tp tr e st sb so ref _ ts nh pd nr) := s in
  Build_State q dq r l cp tp tr e st sb so ref v ts nh pd nr.

Definition set_timers (v : list Timer) (s : State) : State :=
  let '(Build_State q dq r l cp tp tr e st sb so ref nw _ nh pd nr) := s in
  Build_State q dq r l cp tp tr e st sb so ref nw v nh pd nr.

Definition set_next_handle (v : nat) (s : State) : State :=
  let '(Build_State q dq r l cp tp tr e st sb so ref nw ts _ pd nr) := s in
  Build_State q dq r l cp tp tr e st sb so ref nw ts v pd nr.

Definition set_pending (v : list Pending) (s : State) : State :=
  let '(Build_State q dq r l cp tp tr e st sb so ref nw ts nh _ nr) := s in
  Build_State q dq r l cp tp tr e st sb so ref nw ts nh v nr.

Definition set_next_request (v : nat) (s : State) : State :=
  let '(Build_State q dq r l cp tp tr e st sb so ref nw ts nh pd _) := s in
  Build_State q dq r l cp tp tr e st sb so ref nw ts nh pd v.

(** What the component does to the outside. *)
Inductive Effect : Type :=
| Fetch (query : jsstring) (page size : Z)
| DebounceEmit (query : jsstring)
| ResultsChanged (total : Z)
| ScrollToTop.

(** A piece of handler code: it transforms the instance and logs its
    effects. *)
Definition Cmd : Type := State -> State * list Effect.

Definition skip : Cmd := fun s => (s, []).

Definition andThen (c1 c2 : Cmd) : Cmd :=
  fun s =>
    let (s1, out1) := c1 s in
    let (s2, out2) := c2 s1 in
    (s2, out1 ++ out2).

Notation "c1 ;; c2" := (andThen c1 c2) (at level 61, right associativity).

Definition call (f : State -> State) : Cmd := fun s => (f s, []).

Definition emit (e : Effect) : Cmd := fun s => (s, [e]).

(** A command that first reads the instance. *)
Definition reading (k : State -> Cmd) : Cmd := fun s => k s s.

(** *** Timers *)

Definition clearTimeout (id : nat) : Cmd :=
  reading (fun s =>
    call (set_timers
            (filter (fun t => negb (Nat.eqb (handle t) id)) (timers s)))).

(** [debounceRef.current = setTimeout(() => setDebouncedQuery(query), delay)] *)
Definition setTimeout_debounce (query : jsstring) (delay : Z) : Cmd :=
  reading (fun s =>
    let id := next_handle s in
    call (set_timers (timers s ++ [{| handle := id;
                                      due := now s + delay;
                                      closure_query := query |}])) ;;
    call (set_next_handle (S id)) ;;
    call (set_debounceRef (Some id))).

(** [if (debounceRef.current) clearTimeout(debounceRef.current)] *)
Definition clear_debounce : Cmd :=
  reading (fun s =>
    match debounceRef s with
    | Some id => clearTimeout id
    | None => skip
    end).

(** *** [searchPublications] *)

(** Up to the [await]: the flags, the start of the measurement and the
    request itself. *)
Definition searchPublications (searchQuery : jsstring) (page : Z) : Cmd :=
  call (setLoading true) ;;
  call (setError None) ;;
  reading (fun s =>
    let startTime := now s in
    call (set_pending (pending s ++ [{| request := next_request s;
                                        searchQuery := searchQuery;
                                        requested_page := page;
                                        startTime := startTime |}])) ;;
    call (set_next_request (S (next_request s))) ;;
    emit (Fetch searchQuery page pageSize)).

(** [err instanceof Error ? err.message : "An error occurred"] *)
Definition error_text (err : thrown) : jsstring :=
  match err with
  | ErrorObject message => message
  | OtherValue => lit "An error occurred"
  end.

Section Controller.
Context {env : Environment}.

(** From the [await] on, once the executor's promise has settled: the
    [try] block's remainder or the [catch] block, then [finally]. *)
Definition searchPublications_resume (p : Pending) (outcome : Settled) : Cmd :=
  match outcome with
  | Fulfilled data =>
      reading (fun s =>
        let endTime := now s in
        call (setSearchTime (Qmake (endTime - startTime p) 1000))) ;;
      call (setResults (Api.results data)) ;;
      call (setTotalPages (total_pages data)) ;;
      call (setTotalResults (total data)) ;;
      call (setCurrentPage (page data)) ;;
      (if onResultsChange then emit (ResultsChanged (total data)) else skip)
  | Rejected err =>
      call (setError (Some (error_text err))) ;;
      call (setResults [])
  end ;;
  call (setLoading false).

(** *** The effects of the component, run after a render *)

(** The debounce effect, dependency [query]. Its body clears the timer of
    the ref and arms a new one; its cleanup clears the timer of the ref.
    When [query] has changed the cleanup of the previous run precedes the
    body. *)
Definition debounce_effect_body : Cmd :=
  clear_debounce ;;
  reading (fun s => setTimeout_debounce (query s) debounce_delay).

Definition debounce_effect_cleanup : Cmd := clear_debounce.

Definition debounce_effect : Cmd :=
  debounce_effect_cleanup ;; debounce_effect_body.

(** The effect with dependency [debouncedQuery]. *)
Definition debounced_search_effect : Cmd :=
  call (setCurrentPage 1) ;;
  reading (fun s => searchPublications (debouncedQuery s) 1).

(** After the handler's state updates, the effects whose dependency
    changed since the previous render run, in the order of their
    declaration. The two effects that search also list
    [searchPublications], a [useCallback] over [pageSize] and
    [onResultsChange]: [pageSize] is a constant, and the prop is taken to
    keep its identity for the life of the instance (it is absent, or the
    parent hands over the same function at every render), so this
    dependency never changes after the mount. *)
Definition commit (before : State) : Cmd :=
  reading (fun s =>
    if str_eqb (query before) (query s) then skip else debounce_effect) ;;
  reading (fun s =>
    if str_eqb (debouncedQuery before) (debouncedQuery s) then skip
    else debounced_search_effect).

Definition dispatch (handler : Cmd) : Cmd :=
  reading (fun before => handler ;; commit before).

(** *** Mounting *)

Definition initial : State :=
  {| query := []; debouncedQuery := []; results := []; loading := false;
     currentPage := 1; totalPages := 0; totalResults := 0; error := None;
     searchTime := 0%Q; sortBy := lit "relevance"; sortOrder := desc;
     debounceRef := None;
     now := 0; timers := []; next_handle := 1%nat;
     pending := []; next_request := 1%nat |}.

(** The first run of the three effects: the debounce effect, the initial
    load [searchPublications("")] and the debounced search. *)
Definition mount : Cmd :=
  debounce_effect_body ;;
  searchPublications [] 1 ;;
  debounced_search_effect.

(** *** Handlers *)

Definition handleClearSearch : Cmd :=
  clear_debounce ;;
  call (setQuery []) ;;
  call (setDebouncedQuery []) ;;
  call (setCurrentPage 1) ;;
  searchPublications [] 1.

Definition handleSearch : Cmd :=
  reading (fun render =>
    call (setCurrentPage 1) ;;
    searchPublications (query render) 1).

Definition handlePageChange (page : Z) : Cmd :=
  reading (fun render =>
    call (setCurrentPage page) ;;
    searchPublications (query render) page ;;
    emit ScrollToTop).

Definition handleQuickSearch (suggestion : jsstring) : Cmd :=
  call (setQuery suggestion) ;;
  call (setCurrentPage 1) ;;
  searchPublications suggestion 1.

(** [new Date(published_date || "").getTime()]: the empty string is no
    date. *)
Definition date_key (published_date : jsstring) : number :=
  let s := if truthy published_date then published_date else [] in
  match s with
  | [] => NaN
  | _ :: _ => Date_parse s
  end.

(** The comparator handed to [sort]. *)
Definition compare_results (newSortBy : jsstring) (newSortOrder : SortOrder)
  (a b : Publication) : Z :=
  let verdict (greater less : bool) : Z :=
    match newSortOrder with
    | asc => if greater then 1 else -1
    | desc => if less then 1 else -1
    end in
  if str_eqb newSortBy (lit "published_date") then
    let aVal := date_key (published_date a) in
    let bVal := date_key (published_date b) in
    verdict (num_gt aVal bVal) (num_lt aVal bVal)
  else if str_eqb newSortBy (lit "title") then
    let aVal := toLowerCase (title a) in
    let bVal := toLowerCase (title b) in
    verdict (str_gt aVal bVal) (str_lt aVal bVal)
  else
    let aVal := score a in
    let bVal := score b in
    verdict (num_gt aVal bVal) (num_lt aVal bVal).

Definition handleSortChange (newSortBy : jsstring) (newSortOrder : SortOrder)
  : Cmd :=
  reading (fun render =>
    call (setSortBy newSortBy) ;;
    call (setSortOrder newSortOrder) ;;
    let sortedResults :=
      Array_sort Publication (compare_results newSortBy newSortOrder)
                 (results render) in
    call (setResults sortedResults)).

(** *** Timers expiring and promises settling *)

(** The runtime takes an expired timer off its table and runs the
    callback, [setDebouncedQuery(query)] with the [query] of the render
    that armed it. *)
Definition fire (t : Timer) : Cmd :=
  clearTimeout (handle t) ;;
  reading (fun s => call (set_now (Z.max (now s) (due t)))) ;;
  dispatch (emit (DebounceEmit (closure_query t)) ;;
            call (setDebouncedQuery (closure_query t))).

Definition armed (id : nat) (s : State) : bool :=
  existsb (fun t => Nat.eqb (handle t) id) (timers s).

(** The timers of [table], in the order they were armed, that are still
    armed and expire by [limit]. *)
Fixpoint fire_due (limit : Z) (table : list Timer) : Cmd :=
  match table with
  | [] => skip
  | t :: table' =>
      reading (fun s =>
        if (due t <=? limit) && armed (handle t) s then fire t else skip) ;;
      fire_due limit table'
  end.

(** [ms] milliseconds pass. *)
Definition elapse (ms : Z) : Cmd :=
  reading (fun s =>
    let limit := now s + Z.max 0 ms in
    fire_due limit (timers s) ;;
    call (set_now limit)).

Definition find_pending (id : nat) (s : State) : option Pending :=
  find (fun p => Nat.eqb (request p) id) (pending s).

(** The response to request [id] arrives. *)
Definition settle (id : nat) (response : FetchOutcome) : Cmd :=
  reading (fun s =>
    match find_pending id s with
    | Some p =>
        call (set_pending
                (filter (fun p' => negb (Nat.eqb (request p') id))
                        (pending s))) ;;
        dispatch (searchPublications_resume
                    p (Api.searchPublications response))
    | None => skip
    end).

(** *** The controls of the rendered component *)

Inductive Event : Type :=
| Change (text : jsstring)
| SubmitForm
| ClickClear
| ClickSuggestion (suggestion : jsstring)
| SelectSort (value : jsstring)
| ToggleSortOrder
| ClickPrevious
| ClickNext
| ClickPage (index : nat)
| Elapse (ms : Z)
| Settle (id : nat) (response : FetchOutcome).

Definition is_empty {A : Type} (l : list A) : bool :=
  match l with [] => true | _ :: _ => false end.

(** The handler a control runs in the current render, if the control is
    rendered and not disabled:
    - the input's [onChange] is [setQuery(e.target.value)];
    - the submit button is [disabled={loading}];
    - the clear buttons are rendered under [query &&];
    - the suggestions under
      [!query || (!loading && results.length === 0 && query)];
    - the sort controls under [!loading && totalResults > 0];
    - the pagination under [totalPages > 1], with Previous disabled on
      page 1, Next disabled on the last page and the ["..."] entries
      disabled. *)
Definition control (s : State) (e : Event) : option Cmd :=
  match e with
  | Change text => Some (call (setQuery text))
  | SubmitForm => if loading s then None else Some handleSearch
  | ClickClear => if truthy (query s) then Some handleClearSearch else None
  | ClickSuggestion suggestion =>
      if negb (truthy (query s))
         || (negb (loading s) && is_empty (results s) && truthy (query s))
      then Some (handleQuickSearch suggestion) else None
  | SelectSort value =>
      if negb (loading s) && (totalResults s >? 0)
      then Some (handleSortChange value (sortOrder s)) else None
  | ToggleSortOrder =>
      if negb (loading s) && (totalResults s >? 0)
      then Some (handleSortChange (sortBy s)
                   match sortOrder s with asc => desc | desc => asc end)
      else None
  | ClickPrevious =>
      if (totalPages s >? 1) && negb (currentPage s =? 1)
      then Some (handlePageChange (currentPage s - 1)) else None
  | ClickNext =>
      if (totalPages s >? 1) && negb (currentPage s =? totalPages s)
      then Some (handlePageChange (currentPage s + 1)) else None
  | ClickPage index =>
      if totalPages s >? 1 then
        match nth_error
                (Pagination.getVisiblePages (currentPage s) (totalPages s))
                index with
        | Some (Pagination.PageNumber page) => Some (handlePageChange page)
        | Some Pagination.Ellipsis | None => None
        end
      else None
  | Elapse _ | Settle _ _ => None
  end.

(** One event of the component's life. *)
Definition step (e : Event) : Cmd :=
  match e with
  | Elapse ms => elapse ms
  | Settle id response => settle id response
  | _ =>
      reading (fun s =>
        match control s e with
        | Some handler => dispatch handler
        | None => skip
        end)
  end.

Fixpoint run (events : list Event) : Cmd :=
  match events with
  | [] => skip
  | e :: events' => step e ;; run events'
  end.

End Controller.

(** *** Reading the specification's vocabulary off the instance *)

(** The states of the specification's machine, as the render shows them:
    the skeleton while [loading], the error panel under [error &&],
    the results otherwise. *)
Inductive Phase : Type := Loading | Failed | Ready.

Definition phase (s : State) : Phase :=
  if loading s then Loading
  else match error s with
       | Some message => if truthy message then Failed else Ready
       | None => Ready
       end.

(** The timer table holds at most one timer, the one the ref points
    to. *)
Definition debounce_invariant (s : State) : Prop :=
  timers s = []
  \/ exists t, timers s = [t] /\ debounceRef s = Some (handle t).

(** Commands that leave the timer table and the ref alone, and commands
    that keep the invariant. *)
Definition keeps_timers (c : Cmd) : Prop :=
  forall s, timers (fst (c s)) = timers s
            /\ debounceRef (fst (c s)) = debounceRef s.

Definition keeps_invariant (c : Cmd) : Prop :=
  forall s, debounce_invariant s -> debounce_invariant (fst (c s)).

(** The state right after a keystroke: one timer, armed now for the text
    just typed. *)
Definition armed_for (text : jsstring) (s : State) : Prop :=
  exists id,
    timers s = [{| handle := id; due := now s + debounce_delay;
                   closure_query := text |}]
    /\ debounceRef s = Some id
    /\ query s = text.

(** The debounced-query emissions among the effects. *)
Definition emissions (out : list Effect) : list jsstring :=
  flat_map (fun e => match e with DebounceEmit q => [q] | _ => [] end) out.

(** The network requests among the effects. *)
Definition requests (out : list Effect) : list (jsstring * Z) :=
  flat_map (fun e => match e with Fetch q p _ => [(q, p)] | _ => [] end) out.

(** A burst of typing: a first keystroke, further keystrokes each after
    its gap, then [idle] milliseconds without input. *)
Fixpoint keystrokes (rest : list (Z * jsstring)) : list Event :=
  match rest with
  | [] => []
  | (gap, text) :: rest' => Elapse gap :: Change text :: keystrokes rest'
  end.

Definition typing (first : jsstring) (rest : list (Z * jsstring)) (idle : Z)
  : list Event :=
  Change first :: keystrokes rest ++ [Elapse idle].

(** The text of the last keystroke of a burst. *)
Fixpoint final_text (first : jsstring) (rest : list (Z * jsstring))
  : jsstring :=
  match rest with
  | [] => first
  | (_, text) :: rest' => final_text text rest'
  end.

(** Every keystroke changes the text of the input, as [onChange]
    requires. *)
Fixpoint each_changes (previous : jsstring) (rest : list (Z * jsstring))
  : Prop :=
  match rest with
  | [] => True
  | (_, text) :: rest' => text <> previous /\ each_changes text rest'
  end.

End Search.

(** ** The classification flow: [DocumentClassification.handleClassify] *)

Module Classification.

Inductive ModelType : Type := naive_bayes | logistic_regression.

(** Modelled from the spec: the declarations of [ClassificationResult]
    and [ModelInfo] in the services module are not among the sources;
    these are the fields the classification and model-info endpoints
    return. *)
Record ClassificationResult : Type := {
  predicted_category : jsstring;
  confidence : number;
  probabilities : list (jsstring * number);
  model_used : jsstring;
  text_length : Z;
  processed_text_length : Z
}.

Record ModelInfo : Type := {
  is_trained : bool;
  total_documents : Z;
  categories : list jsstring
}.

Record State : Type := {
  text : jsstring;
  result : option ClassificationResult;
  loading : bool;
  error : option jsstring;
  modelType : ModelType;
  modelInfo : option ModelInfo
}.

Definition setResult (v : option ClassificationResult) (s : State) : State :=
  {| text := text s; result := v; loading := loading s; error := error s;
     modelType := modelType s; modelInfo := modelInfo s |}.

Definition setLoading (v : bool) (s : State) : State :=
  {| text := text s; result := result s; loading := v; error := error s;
     modelType := modelType s; modelInfo := modelInfo s |}.

Definition setError (v : option jsstring) (s : State) : State :=
  {| text := text s; result := result s; loading := loading s; error := v;
     modelType := modelType s; modelInfo := modelInfo s |}.

Inductive Effect : Type :=
| ClassifyText (text : jsstring) (model : ModelType)
| ConsoleError.

(** [handleClassify] up to its [await]: the guard on the trimmed text,
    then the flags and the call of [ApiService.classifyText(text,
    modelType)]. *)
Definition handleClassify (s : State) : State * list Effect :=
  if negb (truthy (trim (text s))) then
    (setError (Some (lit "Please enter some text to classify")) s, [])
  else
    (setError None (setLoading true s), [ClassifyText (text s) (modelType s)]).

(** [handleClassify] from its [await] on: the result, or the [catch]
    block, then [finally]. *)
Definition handleClassify_resume (outcome : ClassificationResult + thrown)
  (s : State) : State * list Effect :=
  match outcome with
  | inl classificationResult =>
      (setLoading false (setResult (Some classificationResult) s), [])
  | inr _ =>
      (setLoading false
         (setError (Some (lit "Failed to classify text. Please try again."))
                   s),
       [ConsoleError])
  end.

End Classification.

(** ** Sample data

    Publications, responses and event sequences on which the properties
    below are evaluated. *)

Module Samples.

Import Api Search.

(** [Date.parse] on the dates of the samples. *)
Definition sample_parse (s : jsstring) : number :=
  if str_eqb s (lit "2020-01-01") then Num (1577836800000 # 1)
  else if str_eqb s (lit "11 Feb 2025") then Num (1739232000000 # 1)
  else NaN.

(** [toLowerCase] on ASCII text. *)
Definition ascii_lower (s : jsstring) : jsstring :=
  map (fun c => if ((65 <=? c) && (c <=? 90))%N then (c + 32)%N else c) s.

Definition chrome : Environment := V8.environment sample_parse ascii_lower true.

Definition paper (name : string) (date : string) (relevance : Q)
  : Publication :=
  {| title := lit name;
     link := lit "https://example.org/" ++ lit name;
     authors := [lit "A. Author"];
     published_date := lit date;
     abstract := [];
     score := Num relevance |}.

Definition old_paper : Publication := paper "Old" "2020-01-01" (1 # 2).
Definition new_paper : Publication := paper "New" "11 Feb 2025" (3 # 4).
Definition tied_paper : Publication := paper "Tied" "2020-01-01" (1 # 2).
Definition undated_paper : Publication := paper "Undated" "" (1 # 4).

(** A 200 response carrying one page. *)
Definition page_of (papers : list Publication) (total page total_pages : Z)
  : FetchOutcome :=
  Response 200 (Json {| Api.results := papers; total := total; page := page;
                        size := 10; total_pages := total_pages |}).

(** The instance right after mounting, and once the two requests of the
    mount were answered with the first of three pages. *)
Definition mounted : State := fst (mount initial).

Definition first_page : FetchOutcome :=
  page_of [old_paper; new_paper] 23 1 3.

Definition ready : State :=
  fst (@run chrome [Settle 1 first_page; Settle 2 first_page] mounted).

(** The user types "old" and submits (request 3), then types "new" and
    pauses until the debounce timer fires (request 4): two requests are
    in flight. *)
Definition overlapping : list Event :=
  [Change (lit "old"); SubmitForm; Elapse 1000; Change (lit "new");
   Elapse 4000].

Definition old_page : FetchOutcome := page_of [old_paper] 7 1 1.
Definition new_page : FetchOutcome := page_of [new_paper] 1 1 1.

(** The user types "ml", submits within the debounce delay and waits. *)
Definition type_then_submit : list Event :=
  [Change (lit "ml"); Elapse 1000; SubmitForm].

End Samples.

(** ** Views

    What the sub-components compute from their props: the entries of the
    page list, the range shown by [SearchStats] and the texts of a
    [PublicationCard]. *)

Module PageList.

Import Pagination.

(** The page numbers among the entries, in their order. *)
Definition page_numbers (pages : list PageEntry) : list Z :=
  flat_map (fun e => match e with PageNumber n => [n] | Ellipsis => [] end)
           pages.

(** Neighbouring page numbers are consecutive, and an ellipsis stands
    between two page numbers that are not. *)
Fixpoint well_spaced (pages : list PageEntry) : Prop :=
  match pages with
  | [] => True
  | PageNumber a :: rest =>
      match rest with
      | [] => True
      | PageNumber b :: _ => b = a + 1 /\ well_spaced rest
      | Ellipsis :: rest' =>
          match rest' with
          | PageNumber b :: _ => a + 1 < b /\ well_spaced rest'
          | _ => False
          end
      end
  | Ellipsis :: _ => False
  end.

End PageList.

(** [SearchStats]: the range of results shown for a page. *)

Module Stats.

Definition startResult (currentPage pageSize : Z) : Z :=
  (currentPage - 1) * pageSize + 1.

Definition endResult (currentPage pageSize totalResults : Z) : Z :=
  Z.min (currentPage * pageSize) totalResults.

End Stats.

(** [PublicationCard]: the abstract and the line of authors. *)

Module Card.

(** An author as the card reads it: a name and an optional profile
    link. *)
Record Author : Type := {
  name : jsstring;
  profile : option jsstring
}.

(** [text.substring(0, maxLength)] for a [maxLength] below the length of
    [text]; a negative [maxLength] counts as 0. *)
Definition truncateText (text : jsstring) (maxLength : Z) : jsstring :=
  if negb (truthy text) || (Z.of_nat (length text) <=? maxLength) then text
  else firstn (Z.to_nat maxLength) text ++ lit "...".

(** The text of the span of the author at [idx] among [len] authors: the
    name, [", "] when [idx < Math.min(len - 1, 2)] and [" and others"]
    when [idx === 2 && len > 3]. *)
Definition author_span (len : Z) (idx : Z) (author : Author) : jsstring :=
  name author
    ++ (if idx <? Z.min (len - 1) 2 then lit ", " else [])
    ++ (if (idx =? 2) && (len >? 3) then lit " and others" else []).

(** [authors.slice(0, 3).map((author, idx) => ...)], from index [idx]. *)
Fixpoint author_spans (len : Z) (idx : Z) (authors : list Author)
  : list jsstring :=
  match authors with
  | [] => []
  | author :: authors' =>
      author_span len idx author :: author_spans len (idx + 1) authors'
  end.

(** The text of the authors line. *)
Definition authors_line (authors : list Author) : jsstring :=
  if (Z.of_nat (length authors) >? 0) then
    concat (author_spans (Z.of_nat (length authors)) 0 (firstn 3 authors))
  else lit "Authors not available".

(** The names joined by [", "]. *)
Fixpoint joined (names : list jsstring) : jsstring :=
  match names with
  | [] => []
  | [n] => n
  | n :: names' => n ++ lit ", " ++ joined names'
  end.

End Card.

(** ** The classification view: the controls around [handleClassify] *)

Module ClassificationView.

Import Classification.

Definition setText (v : jsstring) (s : State) : State :=
  {| text := v; result := result s; loading := loading s; error := error s;
     modelType := modelType s; modelInfo := modelInfo s |}.

Definition handleClear (s : State) : State :=
  setError None (setResult None (setText [] s)).

(** The classify button: [disabled={loading || !text.trim()}]. *)
Definition classify_disabled (s : State) : bool :=
  loading s || negb (truthy (trim (text s))).

(** A click on the classify button. *)
Definition click_classify (s : State) : State * list Effect :=
  if classify_disabled s then (s, []) else handleClassify s.

(** [text.split(/\s+/)]: the pieces between the runs of white space, the
    piece before a leading run and after a trailing one included.
    [in_gap] tells that the last unit read was white space, [word] is the
    piece read so far. *)
Fixpoint split_whitespace (in_gap : bool) (word : jsstring) (s : jsstring)
  : list jsstring :=
  match s with
  | [] => [word]
  | c :: s' =>
      if is_whitespace c then
        if in_gap then split_whitespace true [] s'
        else word :: split_whitespace true [] s'
      else split_whitespace false (word ++ [c]) s'
  end.

(** [text.split(/\s+/).filter((word) => word.length > 0).length] *)
Definition word_count (text : jsstring) : nat :=
  length (filter truthy (split_whitespace false [] text)).

End ClassificationView.

(** ** Bookkeeping of the runtime *)

Module Runtime.

Import Search.

(** The suspended calls have distinct numbers, below the next number to
    hand out, and none started after the current clock value. *)
Definition requests_wellformed (s : State) : Prop :=
  NoDup (map request (pending s))
  /\ Forall (fun p => (request p < next_request s)%nat /\ startTime p <= now s)
            (pending s).

(** The order [lt] restricted to the elements of [l]. *)
Definition within {A : Type} (l : list A) (lt : A -> A -> Prop) (x y : A)
  : Prop :=
  In x l /\ In y l /\ lt x y.

(** The pagination controls. *)
Definition pagination_control (e : Event) : bool :=
  match e with
  | ClickPrevious | ClickNext | ClickPage _ => true
  | _ => false
  end.

(** Commands all of whose effects satisfy [P]. *)
Definition emits_only (P : Effect -> Prop) (c : Cmd) : Prop :=
  forall s, Forall P (snd (c s)).

(** A request, if the effect is one, is for a page of [pageSize]
    results; it is for the first page. *)
Definition sized_request (e : Effect) : Prop :=
  match e with
  | Fetch _ _ size => size = pageSize
  | _ => True
  end.

Definition first_page_request (e : Effect) : Prop :=
  match e with
  | Fetch _ page size => page = 1 /\ size = pageSize
  | _ => True
  end.

(** Commands that keep the bookkeeping of the requests in order and move
    the clock forward only, and not beyond [limit]. *)
Definition keeps_requests (limit : Z) (c : Cmd) : Prop :=
  forall s,
    requests_wellformed s ->
    now s <= limit ->
    requests_wellformed (fst (c s))
    /\ now s <= now (fst (c s)) <= limit.

End Runtime.

(** ** The order a sort by score asks for *)

Module SortSpec.

Import Api Search.

(** The score of [a] is below the score of [b]. *)
Definition score_lt (a b : Publication) : Prop :=
  num_lt (score a) (score b) = true.

(** Any two results at different places of the page have finite scores
    that differ. *)
Definition distinct_scores (page : list Publication) : Prop :=
  ForallOrdPairs (fun a b => score_lt a b \/ score_lt b a) page.

(** [a] is to come before [b]. *)
Definition in_order (order : SortOrder) (a b : Publication) : Prop :=
  match order with
  | asc => score_lt a b
  | desc => score_lt b a
  end.

Definition opposite (order : SortOrder) : SortOrder :=
  match order with asc => desc | desc => asc end.

(** The values of [sortBy] that sort by score: all but the two the
    [switch] names. *)
Definition by_score (field : jsstring) : Prop :=
  str_eqb field (lit "published_date") = false
  /\ str_eqb field (lit "title") = false.

End SortSpec.

(** * Properties *)

(** ** Pagination *)

Module PaginationProps.

Import Pagination.

(** The loop appends the pages [i .. totalPages] when the fuel covers
    them. *)
Lemma push_upto_spec (fuel : nat) :
  forall i totalPages pages,
    totalPages - i + 1 <= Z.of_nat fuel ->
    push_upto fuel i totalPages pages =
    pages ++ map (fun k => PageNumber (i + Z.of_nat k))
                 (seq 0 (Z.to_nat (totalPages - i + 1))).
Proof.
  induction fuel as [|fuel IH]; intros i totalPages pages Hfuel; simpl.
  - replace (Z.to_nat (totalPages - i + 1)) with 0%nat by lia.
    simpl. now rewrite app_nil_r.
  - destruct (Z.leb_spec i totalPages) as [Hle|Hgt].
    + rewrite IH by lia.
      replace (Z.to_nat (totalPages - i + 1))
        with (S (Z.to_nat (totalPages - (i + 1) + 1))) by lia.
      simpl. rewrite <- app_assoc. simpl. rewrite Z.add_0_r.
      do 2 f_equal. rewrite <- seq_shift, map_map.
      apply map_ext. intros k. f_equal. lia.
    + replace (Z.to_nat (totalPages - i + 1)) with 0%nat by lia.
      simpl. now rewrite app_nil_r.
Qed.

Lemma push_upto_all_pages (totalPages : Z) :
  push_upto (Z.to_nat totalPages) 1 totalPages [] = all_pages totalPages.
Proof.
  rewrite push_upto_spec by lia. cbn [app]. unfold all_pages.
  replace (totalPages - 1 + 1) with totalPages by lia.
  rewrite <- seq_shift, map_map. apply map_ext. intros k. f_equal. lia.
Qed.

(** The code computes the specification's function, on every input. *)
Lemma getVisiblePages_refines (current total : Z) :
  getVisiblePages current total = visiblePages current total.
Proof.
  unfold getVisiblePages, visiblePages.
  rewrite Z.gtb_ltb, Z.geb_leb, <- Z.leb_antisym.
  destruct (Z.leb_spec total 7); simpl.
  - apply push_upto_all_pages.
  - destruct (Z.leb_spec current 4); simpl; [reflexivity|].
    destruct (Z.leb_spec (total - 3) current); reflexivity.
Qed.

Lemma all_pages_length (total : Z) :
  length (all_pages total) = Z.to_nat total.
Proof. unfold all_pages. now rewrite length_map, length_seq. Qed.

Lemma all_pages_In (total n : Z) :
  1 <= n <= total -> In (PageNumber n) (all_pages total).
Proof.
  intros Hn. unfold all_pages. apply in_map_iff.
  exists (Z.to_nat n). split; [f_equal; lia | apply in_seq; lia].
Qed.

Lemma visiblePages_length (current total : Z) :
  (length (visiblePages current total) <= 7)%nat.
Proof.
  unfold visiblePages.
  destruct (Z.leb_spec total 7).
  - rewrite all_pages_length. lia.
  - destruct (current <=? 4); [simpl; lia|].
    destruct (total - 3 <=? current); simpl; lia.
Qed.

Lemma visiblePages_ends (current total : Z) :
  1 <= total ->
  In (PageNumber 1) (visiblePages current total)
  /\ In (PageNumber total) (visiblePages current total).
Proof.
  intros Htotal. unfold visiblePages.
  destruct (Z.leb_spec total 7).
  - split; apply all_pages_In; lia.
  - destruct (current <=? 4); [simpl; tauto|].
    destruct (total - 3 <=? current); simpl; tauto.
Qed.

(** The current page is always among the visible entries. *)
Lemma current_page_visible (current total : Z) :
  1 <= current <= total ->
  In (PageNumber current) (getVisiblePages current total).
Proof.
  intros Hrange. rewrite getVisiblePages_refines. unfold visiblePages.
  destruct (Z.leb_spec total 7); [apply all_pages_In; lia|].
  destruct (Z.leb_spec current 4).
  - assert (current = 1 \/ current = 2 \/ current = 3 \/ current = 4)
      as [-> | [-> | [-> | ->]]] by lia; simpl; tauto.
  - destruct (Z.leb_spec (total - 3) current).
    + assert (current = total - 3 \/ current = total - 2
              \/ current = total - 1 \/ current = total)
        as [-> | [-> | [-> | ->]]] by lia; simpl; tauto.
    + simpl. tauto.
Qed.

(** C3. For 1 <= current <= total, [getVisiblePages] is the four-case
    function of the specification: the pages 1..total when total <= 7;
    otherwise 1..5, an ellipsis and total when current <= 4; 1, an
    ellipsis and the last five pages when current >= total-3; and 1, an
    ellipsis, current-1, current, current+1, an ellipsis and total in
    between. Its output has at most 7 entries, contains page 1 and page
    total, and is determined by its two inputs. *)
Theorem getVisiblePages_four_cases (current total : Z) :
  1 <= current <= total ->
  let pages := getVisiblePages current total in
  pages = visiblePages current total
  /\ (total <= 7 ->
      pages = map (fun k => PageNumber (Z.of_nat k)) (seq 1 (Z.to_nat total)))
  /\ (7 < total -> current <= 4 ->
      pages = [PageNumber 1; PageNumber 2; PageNumber 3; PageNumber 4;
               PageNumber 5; Ellipsis; PageNumber total])
  /\ (7 < total -> 4 < current -> total - 3 <= current ->
      pages = [PageNumber 1; Ellipsis; PageNumber (total - 4);
               PageNumber (total - 3); PageNumber (total - 2);
               PageNumber (total - 1); PageNumber total])
  /\ (7 < total -> 4 < current < total - 3 ->
      pages = [PageNumber 1; Ellipsis; PageNumber (current - 1);
               PageNumber current; PageNumber (current + 1); Ellipsis;
               PageNumber total])
  /\ (length pages <= 7)%nat
  /\ In (PageNumber 1) pages
  /\ In (PageNumber total) pages
  /\ (forall current' total',
        current' = current -> total' = total ->
        getVisiblePages current' total' = pages).
Proof.
  intros Hrange pages. subst pages.
  rewrite getVisiblePages_refines.
  split; [reflexivity|].
  split; [|split; [|split; [|split]]].
  - intros H. unfold visiblePages.
    destruct (Z.leb_spec total 7); [reflexivity | lia].
  - intros H7 H4. unfold visiblePages.
    destruct (Z.leb_spec total 7); [lia|].
    destruct (Z.leb_spec current 4); [reflexivity | lia].
  - intros H7 H4 Hend. unfold visiblePages.
    destruct (Z.leb_spec total 7); [lia|].
    destruct (Z.leb_spec current 4); [lia|].
    destruct (Z.leb_spec (total - 3) current); [reflexivity | lia].
  - intros H7 Hmid. unfold visiblePages.
    destruct (Z.leb_spec total 7); [lia|].
    destruct (Z.leb_spec current 4); [lia|].
    destruct (Z.leb_spec (total - 3) current); [lia | reflexivity].
  - split; [apply visiblePages_length|].
    split; [apply visiblePages_ends; lia|].
    split; [apply visiblePages_ends; lia|].
    intros current' total' -> ->. apply getVisiblePages_refines.
Qed.

Lemma getVisiblePages_four_cases_witness :
  1 <= 9 <= 20
  /\ getVisiblePages 9 20 =
     [PageNumber 1; Ellipsis; PageNumber 8; PageNumber 9; PageNumber 10;
      Ellipsis; PageNumber 20].
Proof.
  split; [lia|].
  pose proof (getVisiblePages_four_cases 9 20 ltac:(lia)) as H.
  cbv zeta in H.
  destruct H as (_ & _ & _ & _ & Hmid & _).
  apply Hmid; lia.
Defined.

End PaginationProps.

(** ** Strings *)

Module StringProps.

Lemma str_eqb_refl (a : jsstring) : str_eqb a a = true.
Proof.
  induction a as [|x a IH]; simpl; [reflexivity|].
  now rewrite N.eqb_refl.
Qed.

Lemma str_eqb_eq (a b : jsstring) : str_eqb a b = true <-> a = b.
Proof.
  split; [|intros ->; apply str_eqb_refl].
  revert b.
  induction a as [|x a IH]; intros [|y b]; simpl; try discriminate; auto.
  intros H. apply andb_true_iff in H. destruct H as [Hx Hab].
  apply N.eqb_eq in Hx. subst. f_equal. auto.
Qed.

Lemma str_eqb_neq (a b : jsstring) : a <> b -> str_eqb a b = false.
Proof.
  intros Hne. destruct (str_eqb a b) eqn:E; [|reflexivity].
  apply str_eqb_eq in E. contradiction.
Qed.

(** [trimStart] leaves nothing exactly of the strings made of white
    space. *)
Lemma trimStart_nil (s : jsstring) :
  trimStart s = [] <-> forallb is_whitespace s = true.
Proof.
  induction s as [|c s IH]; simpl; [tauto|].
  destruct (is_whitespace c); simpl; [exact IH|].
  split; discriminate.
Qed.

Lemma forallb_rev {A : Type} (f : A -> bool) (l : list A) :
  forallb f (rev l) = forallb f l.
Proof.
  induction l as [|x l IH]; simpl; [reflexivity|].
  rewrite forallb_app, IH. simpl. rewrite andb_true_r. apply andb_comm.
Qed.

Lemma trimStart_whitespace_free (s : jsstring) :
  forallb is_whitespace s = false ->
  forallb is_whitespace (trimStart s) = false.
Proof.
  induction s as [|c s IH]; simpl; [discriminate|].
  destruct (is_whitespace c) eqn:E; simpl; [exact IH|].
  now rewrite E.
Qed.

(** [trim] leaves nothing exactly of the strings that are empty or made
    of white space only. *)
Lemma trim_nil (s : jsstring) :
  trim s = [] <-> forallb is_whitespace s = true.
Proof.
  unfold trim, trimEnd.
  destruct (forallb is_whitespace s) eqn:E.
  - apply trimStart_nil in E. rewrite E. simpl. tauto.
  - split; [|discriminate]. intros H.
    apply (f_equal (@rev N)) in H. rewrite rev_involutive in H. simpl in H.
    apply trimStart_nil in H. rewrite forallb_rev in H.
    apply trimStart_whitespace_free in E. congruence.
Qed.

End StringProps.

(** ** The search session controller *)

Module SearchProps.

Import Api Search StringProps.

(** Runs the commands of the controller on a state given by its fields. *)
Ltac exec :=
  cbv beta iota zeta delta
    [andThen call emit reading skip dispatch commit
     searchPublications searchPublications_resume
     debounce_effect debounce_effect_body debounce_effect_cleanup
     debounced_search_effect clear_debounce clearTimeout
     setTimeout_debounce handleClearSearch handleSearch handlePageChange
     handleQuickSearch handleSortChange fire
     setQuery setDebouncedQuery setResults setLoading setCurrentPage
     setTotalPages setTotalResults setError setSearchTime setSortBy
     setSortOrder set_debounceRef set_now set_timers set_next_handle
     set_pending set_next_request
     query debouncedQuery results loading currentPage totalPages
     totalResults error searchTime sortBy sortOrder debounceRef now timers
     next_handle pending next_request fst snd].

Create HintDb timers.

Section Controller.
Context {env : Environment}.

(** *** Requests and responses *)

(** Issuing a request touches the two flags and the list of suspended
    calls only. *)
Lemma searchPublications_issue (q : jsstring) (pg : Z) (s : State) :
  searchPublications q pg s =
  (set_next_request (S (next_request s))
     (set_pending (pending s ++ [{| request := next_request s;
                                    searchQuery := q;
                                    requested_page := pg;
                                    startTime := now s |}])
        (setError None (setLoading true s))),
   [Fetch q pg pageSize]).
Proof. destruct s. reflexivity. Qed.

(** A settling response runs the rest of [searchPublications] on the
    instance as it is then; no effect of the component re-runs after
    it. *)
Lemma settle_resume (id : nat) (response : FetchOutcome) (s : State)
  (p : Pending) :
  find_pending id s = Some p ->
  settle id response s =
  searchPublications_resume p (Api.searchPublications response)
    (set_pending (filter (fun p' => negb (Nat.eqb (request p') id))
                         (pending s)) s).
Proof.
  intros Hp. unfold settle, reading. rewrite Hp.
  destruct (Api.searchPublications response) as [data|err];
    destruct s; exec.
  - destruct (@onResultsChange env); exec;
      rewrite !str_eqb_refl; exec; now rewrite app_nil_r.
  - rewrite !str_eqb_refl. reflexivity.
Qed.

Lemma settle_unknown (id : nat) (response : FetchOutcome) (s : State) :
  find_pending id s = None -> settle id response s = (s, []).
Proof. intros Hp. unfold settle, reading. now rewrite Hp. Qed.

(** What a fulfilled response writes. *)
Lemma resume_fulfilled (p : Pending) (data : SearchResponse) (s : State) :
  let s' := fst (searchPublications_resume p (Fulfilled data) s) in
  results s' = Api.results data
  /\ totalResults s' = total data
  /\ totalPages s' = total_pages data
  /\ currentPage s' = page data
  /\ loading s' = false
  /\ error s' = error s
  /\ pending s' = pending s.
Proof.
  destruct s. exec. destruct (@onResultsChange env); exec; repeat split.
Qed.

(** What a rejected response writes, and what it leaves. *)
Lemma resume_rejected (p : Pending) (err : thrown) (s : State) :
  searchPublications_resume p (Rejected err) s =
  (setLoading false (setResults [] (setError (Some (error_text err)) s)), []).
Proof. destruct s. reflexivity. Qed.

(** Settling one request leaves the other suspended calls suspended. *)
Lemma settle_keeps_pending (id other : nat) (response : FetchOutcome)
  (s : State) (p : Pending) :
  other <> id ->
  find_pending other s = Some p ->
  find_pending other (fst (settle id response s)) = Some p.
Proof.
  intros Hne Hother.
  assert (Hfilter :
    find (fun q => Nat.eqb (request q) other)
         (filter (fun p' => negb (Nat.eqb (request p') id)) (pending s))
    = Some p).
  { unfold find_pending in Hother.
    induction (pending s) as [|q l IH]; simpl in *; [discriminate|].
    destruct (Nat.eqb_spec (request q) other) as [Heq|Hneq].
    - injection Hother as ->.
      destruct (Nat.eqb_spec (request p) id) as [Hid|Hid]; [congruence|].
      simpl. now rewrite Heq, Nat.eqb_refl.
    - destruct (negb (Nat.eqb (request q) id)); simpl; auto.
      destruct (Nat.eqb_spec (request q) other); [contradiction | auto]. }
  destruct (find_pending id s) as [p0|] eqn:Hid.
  - rewrite (settle_resume _ _ _ _ Hid).
    unfold find_pending.
    destruct (Api.searchPublications response) as [data|err].
    + destruct (resume_fulfilled p0 data
                  (set_pending
                     (filter (fun p' => negb (Nat.eqb (request p') id))
                             (pending s)) s))
        as (_ & _ & _ & _ & _ & _ & Hpend).
      rewrite Hpend. destruct s. exact Hfilter.
    + rewrite resume_rejected. destruct s. exact Hfilter.
  - rewrite settle_unknown by assumption. exact Hother.
Qed.

(** Every response is applied as it arrives. *)
Lemma settle_fulfilled (id : nat) (p : Pending) (status : Z)
  (data : SearchResponse) (s : State) :
  find_pending id s = Some p ->
  ok status = true ->
  let s' := fst (step (Settle id (Response status (Json data))) s) in
  results s' = Api.results data
  /\ totalResults s' = total data
  /\ totalPages s' = total_pages data
  /\ currentPage s' = page data.
Proof.
  intros Hp Hok s'. subst s'. cbn [step].
  rewrite (settle_resume _ _ _ _ Hp).
  unfold Api.searchPublications. rewrite Hok. cbn [negb].
  match goal with
  | |- context [searchPublications_resume p (Fulfilled data) ?t] =>
      destruct (resume_fulfilled p data t) as (H1 & H2 & H3 & H4 & _)
  end.
  auto.
Qed.

(** C1, as the code has it. Responses are applied in the order in which
    they arrive, without regard to the order in which their requests were
    issued: when the response to the newer of two requests in flight
    arrives first, the results, totals and page become the newer
    response's, and when the response to the older request arrives after
    it they become the older response's. *)
Theorem responses_applied_in_arrival_order (s : State) (older newer : nat)
  (p_older p_newer : Pending) (status_older status_newer : Z)
  (data_older data_newer : SearchResponse) :
  find_pending older s = Some p_older ->
  find_pending newer s = Some p_newer ->
  (older < newer)%nat ->
  ok status_older = true ->
  ok status_newer = true ->
  let s1 :=
    fst (step (Settle newer (Response status_newer (Json data_newer))) s) in
  let s2 :=
    fst (step (Settle older (Response status_older (Json data_older))) s1) in
  (results s1 = Api.results data_newer
   /\ totalResults s1 = total data_newer
   /\ totalPages s1 = total_pages data_newer
   /\ currentPage s1 = page data_newer)
  /\ (results s2 = Api.results data_older
      /\ totalResults s2 = total data_older
      /\ totalPages s2 = total_pages data_older
      /\ currentPage s2 = page data_older).
Proof.
  intros Holder Hnewer Hlt Hok_older Hok_newer s1 s2.
  split.
  - exact (settle_fulfilled newer p_newer status_newer data_newer s
             Hnewer Hok_newer).
  - apply (settle_fulfilled older p_older status_older data_older s1);
      [|assumption].
    subst s1. cbn [step]. apply settle_keeps_pending; [lia | assumption].
Qed.

(** *** Page changes *)

Lemma setCurrentPage_same (s : State) : setCurrentPage (currentPage s) s = s.
Proof. destruct s. reflexivity. Qed.

(** [handlePageChange] has no guard: called with the current page it
    issues the request and raises the loading flag like for any other
    page. *)
Lemma handlePageChange_current (s : State) :
  dispatch (handlePageChange (currentPage s)) s =
  (set_next_request (S (next_request s))
     (set_pending (pending s ++ [{| request := next_request s;
                                    searchQuery := query s;
                                    requested_page := currentPage s;
                                    startTime := now s |}])
        (setError None (setLoading true s))),
   [Fetch (query s) (currentPage s) pageSize; ScrollToTop]).
Proof. destruct s. exec. rewrite !str_eqb_refl. reflexivity. Qed.

(** C5, as the code has it. A page change to the current page is handled
    like any other: whenever the pagination is rendered (more than one
    page, the current page within range), the button of the current page
    is among the visible entries and enabled, and clicking it issues the
    network request for (query, currentPage), raises the loading flag and
    clears the error; the page, and every other cell, keep their
    values. *)
Theorem current_page_button_requests_again (s : State) :
  1 < totalPages s ->
  1 <= currentPage s <= totalPages s ->
  exists index : nat,
    nth_error (Pagination.getVisiblePages (currentPage s) (totalPages s))
              index
    = Some (Pagination.PageNumber (currentPage s))
    /\ step (ClickPage index) s =
       (set_next_request (S (next_request s))
          (set_pending (pending s ++ [{| request := next_request s;
                                         searchQuery := query s;
                                         requested_page := currentPage s;
                                         startTime := now s |}])
             (setError None (setLoading true s))),
        [Fetch (query s) (currentPage s) pageSize; ScrollToTop]).
Proof.
  intros Hpages Hrange.
  destruct (In_nth_error _ _
              (PaginationProps.current_page_visible _ _ Hrange))
    as [index Hindex].
  exists index. split; [exact Hindex|].
  cbn [step]. unfold reading at 1. unfold control.
  rewrite Hindex.
  replace (totalPages s >? 1) with true by (symmetry; apply Z.gtb_lt; lia).
  apply handlePageChange_current.
Qed.

(** *** Failures *)

(** The executor rejects every response whose status is outside 200-299
    with an error whose message is not empty. *)
Lemma non_2xx_rejected (status : Z) (body : Body) :
  ok status = false ->
  exists err,
    Api.searchPublications (Response status body) = Rejected err
    /\ truthy (error_text err) = true.
Proof.
  intros Hok. unfold Api.searchPublications. rewrite Hok. cbn [negb].
  eexists. split; [reflexivity|]. reflexivity.
Qed.






(** *** The debounce timer *)

Lemma andThen_fst (c1 c2 : Cmd) (s : State) :
  fst ((c1 ;; c2) s) = fst (c2 (fst (c1 s))).
Proof.
  unfold andThen. destruct (c1 s) as [s1 o1]. simpl. now destruct (c2 s1).
Qed.

Lemma andThen_snd (c1 c2 : Cmd) (s : State) :
  snd ((c1 ;; c2) s) = snd (c1 s) ++ snd (c2 (fst (c1 s))).
Proof.
  unfold andThen. destruct (c1 s) as [s1 o1]. simpl. now destruct (c2 s1).
Qed.

Lemma keeps_timers_invariant c : keeps_timers c -> keeps_invariant c.
Proof.
  intros Hc s Hs. destruct (Hc s) as [Ht Hr].
  unfold debounce_invariant in *. now rewrite Ht, Hr.
Qed.

Lemma keeps_timers_andThen c1 c2 :
  keeps_timers c1 -> keeps_timers c2 -> keeps_timers (c1 ;; c2).
Proof.
  intros H1 H2 s. rewrite andThen_fst.
  destruct (H2 (fst (c1 s))) as [-> ->]. apply H1.
Qed.

Lemma keeps_timers_reading k :
  (forall s, keeps_timers (k s)) -> keeps_timers (reading k).
Proof. intros H s. apply H. Qed.

Lemma keeps_invariant_andThen c1 c2 :
  keeps_invariant c1 -> keeps_invariant c2 -> keeps_invariant (c1 ;; c2).
Proof. intros H1 H2 s Hs. rewrite andThen_fst. auto. Qed.

Lemma keeps_invariant_reading k :
  (forall s, keeps_invariant (k s)) -> keeps_invariant (reading k).
Proof. intros H s. apply H. Qed.

Lemma keeps_timers_skip : keeps_timers skip.
Proof. intros s. split; reflexivity. Qed.

Lemma keeps_timers_emit e : keeps_timers (emit e).
Proof. intros s. split; reflexivity. Qed.

Ltac keeps_setter := intros ? s; destruct s; split; reflexivity.

Lemma keeps_setQuery v : keeps_timers (call (setQuery v)).
Proof. revert v. keeps_setter. Qed.
Lemma keeps_setDebouncedQuery v : keeps_timers (call (setDebouncedQuery v)).
Proof. revert v. keeps_setter. Qed.
Lemma keeps_setResults v : keeps_timers (call (setResults v)).
Proof. revert v. keeps_setter. Qed.
Lemma keeps_setLoading v : keeps_timers (call (setLoading v)).
Proof. revert v. keeps_setter. Qed.
Lemma keeps_setCurrentPage v : keeps_timers (call (setCurrentPage v)).
Proof. revert v. keeps_setter. Qed.
Lemma keeps_setTotalPages v : keeps_timers (call (setTotalPages v)).
Proof. revert v. keeps_setter. Qed.
Lemma keeps_setTotalResults v : keeps_timers (call (setTotalResults v)).
Proof. revert v. keeps_setter. Qed.
Lemma keeps_setError v : keeps_timers (call (setError v)).
Proof. revert v. keeps_setter. Qed.
Lemma keeps_setSearchTime v : keeps_timers (call (setSearchTime v)).
Proof. revert v. keeps_setter. Qed.
Lemma keeps_setSortBy v : keeps_timers (call (setSortBy v)).
Proof. revert v. keeps_setter. Qed.
Lemma keeps_setSortOrder v : keeps_timers (call (setSortOrder v)).
Proof. revert v. keeps_setter. Qed.
Lemma keeps_set_now v : keeps_timers (call (set_now v)).
Proof. revert v. keeps_setter. Qed.
Lemma keeps_set_pending v : keeps_timers (call (set_pending v)).
Proof. revert v. keeps_setter. Qed.
Lemma keeps_set_next_request v : keeps_timers (call (set_next_request v)).
Proof. revert v. keeps_setter. Qed.

#[local] Hint Resolve keeps_timers_andThen keeps_timers_reading keeps_timers_skip
  keeps_timers_emit keeps_setQuery keeps_setDebouncedQuery keeps_setResults
  keeps_setLoading keeps_setCurrentPage keeps_setTotalPages
  keeps_setTotalResults keeps_setError keeps_setSearchTime keeps_setSortBy
  keeps_setSortOrder keeps_set_now keeps_set_pending keeps_set_next_request
  : timers.

Lemma keeps_searchPublications q pg : keeps_timers (searchPublications q pg).
Proof. unfold searchPublications. auto 10 with timers. Qed.

Lemma keeps_resume p o : keeps_timers (searchPublications_resume p o).
Proof.
  unfold searchPublications_resume.
  destruct o; [destruct (@onResultsChange env)|]; auto 12 with timers.
Qed.

Lemma clearTimeout_invariant id : keeps_invariant (clearTimeout id).
Proof.
  intros s [Hnil|(t & Ht & Href)]; destruct s; cbn in *; subst.
  - left. reflexivity.
  - exec. cbn [filter]. destruct (negb (handle t =? id)%nat).
    + right. exists t. split; reflexivity.
    + left. reflexivity.
Qed.

Lemma clear_debounce_invariant : keeps_invariant clear_debounce.
Proof.
  unfold clear_debounce. apply keeps_invariant_reading. intros s.
  destruct (debounceRef s).
  - apply clearTimeout_invariant.
  - apply keeps_timers_invariant, keeps_timers_skip.
Qed.

(** The ref's timer cleared, the table is empty. *)
Lemma clear_debounce_empties (s : State) :
  debounce_invariant s ->
  clear_debounce s = (set_timers [] s, []).
Proof.
  intros [Hnil|(t & Ht & Href)]; destruct s; cbn in *; subst.
  - exec. destruct debounceRef0; reflexivity.
  - exec. cbn [filter]. now rewrite Nat.eqb_refl.
Qed.

(** The debounce effect leaves exactly the timer it arms. *)
Lemma debounce_effect_arms (s : State) :
  debounce_invariant s ->
  debounce_effect s =
  (set_debounceRef (Some (next_handle s))
     (set_next_handle (S (next_handle s))
        (set_timers [{| handle := next_handle s;
                        due := now s + debounce_delay;
                        closure_query := query s |}] s)), []).
Proof.
  intros Hs.
  unfold debounce_effect, debounce_effect_cleanup, debounce_effect_body,
    andThen.
  rewrite (clear_debounce_empties s Hs).
  rewrite clear_debounce_empties by (left; destruct s; reflexivity).
  destruct s. reflexivity.
Qed.

Lemma debounce_effect_invariant : keeps_invariant debounce_effect.
Proof.
  intros s Hs. rewrite (debounce_effect_arms s Hs). right.
  eexists. destruct s. split; reflexivity.
Qed.

Lemma keeps_debounced_search_effect : keeps_timers debounced_search_effect.
Proof.
  unfold debounced_search_effect.
  auto using keeps_searchPublications with timers.
Qed.

Lemma commit_invariant before : keeps_invariant (commit before).
Proof.
  unfold commit. apply keeps_invariant_andThen;
    apply keeps_invariant_reading; intros s.
  - destruct (str_eqb (query before) (query s)).
    + apply keeps_timers_invariant, keeps_timers_skip.
    + apply debounce_effect_invariant.
  - destruct (str_eqb (debouncedQuery before) (debouncedQuery s)).
    + apply keeps_timers_invariant, keeps_timers_skip.
    + apply keeps_timers_invariant, keeps_debounced_search_effect.
Qed.

Lemma dispatch_invariant handler :
  keeps_invariant handler -> keeps_invariant (dispatch handler).
Proof.
  intros H. unfold dispatch. apply keeps_invariant_reading. intros before.
  apply keeps_invariant_andThen; [assumption | apply commit_invariant].
Qed.

Lemma control_invariant (s : State) (e : Event) (handler : Cmd) :
  control s e = Some handler -> keeps_invariant handler.
Proof.
  destruct e; cbn [control]; intros H;
    repeat match type of H with
    | (if ?b then _ else _) = Some _ => destruct b
    | match ?x with _ => _ end = Some _ => destruct x
    | None = Some _ => discriminate
    | Some _ = Some _ => injection H as <-
    end.
  - apply keeps_timers_invariant. auto with timers.
  - apply keeps_timers_invariant. unfold handleSearch.
    auto 10 using keeps_searchPublications with timers.
  - unfold handleClearSearch.
    apply keeps_invariant_andThen; [apply clear_debounce_invariant|].
    apply keeps_timers_invariant.
    auto 10 using keeps_searchPublications with timers.
  - apply keeps_timers_invariant. unfold handleQuickSearch.
    auto 10 using keeps_searchPublications with timers.
  - apply keeps_timers_invariant. unfold handleSortChange.
    auto 10 with timers.
  - apply keeps_timers_invariant. unfold handleSortChange.
    auto 10 with timers.
  - apply keeps_timers_invariant. unfold handlePageChange.
    auto 10 using keeps_searchPublications with timers.
  - apply keeps_timers_invariant. unfold handlePageChange.
    auto 10 using keeps_searchPublications with timers.
  - apply keeps_timers_invariant. unfold handlePageChange.
    auto 10 using keeps_searchPublications with timers.
Qed.

Lemma fire_invariant t : keeps_invariant (fire t).
Proof.
  unfold fire.
  apply keeps_invariant_andThen; [apply clearTimeout_invariant|].
  apply keeps_invariant_andThen.
  - apply keeps_timers_invariant. auto with timers.
  - apply dispatch_invariant, keeps_timers_invariant. auto with timers.
Qed.

Lemma fire_due_invariant limit table : keeps_invariant (fire_due limit table).
Proof.
  induction table as [|t table IH]; cbn [fire_due].
  - apply keeps_timers_invariant, keeps_timers_skip.
  - apply keeps_invariant_andThen; [|exact IH].
    apply keeps_invariant_reading. intros s.
    destruct ((due t <=? limit) && armed (handle t) s).
    + apply fire_invariant.
    + apply keeps_timers_invariant, keeps_timers_skip.
Qed.

Lemma step_invariant (e : Event) : keeps_invariant (step e).
Proof.
  assert (Hcontrol : forall e',
             keeps_invariant
               (reading (fun s => match control s e' with
                                  | Some handler => dispatch handler
                                  | None => skip
                                  end))).
  { intros e'. apply keeps_invariant_reading. intros s.
    destruct (control s e') as [handler|] eqn:E.
    - apply dispatch_invariant. exact (control_invariant s e' handler E).
    - apply keeps_timers_invariant, keeps_timers_skip. }
  destruct e; try apply Hcontrol; cbn [step].
  - unfold elapse. apply keeps_invariant_reading. intros s.
    apply keeps_invariant_andThen; [apply fire_due_invariant|].
    apply keeps_timers_invariant. auto with timers.
  - unfold settle. apply keeps_invariant_reading. intros s.
    destruct (find_pending id s).
    + apply keeps_invariant_andThen.
      * apply keeps_timers_invariant. auto with timers.
      * apply dispatch_invariant, keeps_timers_invariant, keeps_resume.
    + apply keeps_timers_invariant, keeps_timers_skip.
Qed.

Lemma run_invariant (events : list Event) : keeps_invariant (run events).
Proof.
  induction events as [|e events IH]; cbn [run].
  - apply keeps_timers_invariant, keeps_timers_skip.
  - apply keeps_invariant_andThen; [apply step_invariant | exact IH].
Qed.

Lemma mount_invariant : debounce_invariant (fst (mount initial)).
Proof. right. eexists. split; reflexivity. Qed.

Lemma invariant_one_timer (s : State) :
  debounce_invariant s -> (length (timers s) <= 1)%nat.
Proof. intros [->|(t & -> & _)]; simpl; lia. Qed.


Lemma emissions_app (o1 o2 : list Effect) :
  emissions (o1 ++ o2) = emissions o1 ++ emissions o2.
Proof. unfold emissions. apply flat_map_app. Qed.

Lemma run_app (l1 l2 : list Event) (s : State) :
  run (l1 ++ l2) s = (run l1 ;; run l2) s.
Proof.
  revert s. induction l1 as [|e l1 IH]; intros s; cbn [run app].
  - unfold andThen, skip. now destruct (run l2 s).
  - unfold andThen. destruct (step e s) as [s1 o1].
    rewrite IH. unfold andThen.
    destruct (run l1 s1) as [s2 o2]. destruct (run l2 s2) as [s3 o3].
    now rewrite app_assoc.
Qed.

(** A keystroke that changes the text leaves one timer, armed for the new
    text, and emits nothing. *)
Lemma change_arms (text : jsstring) (s : State) :
  debounce_invariant s ->
  text <> query s ->
  armed_for text (fst (step (Change text) s))
  /\ now (fst (step (Change text) s)) = now s
  /\ snd (step (Change text) s) = [].
Proof.
  intros Hs Hne.
  assert (Hstep : step (Change text) s =
                  debounce_effect (setQuery text s)).
  { cbn [step control]. unfold reading at 1. unfold dispatch, reading at 1.
    unfold andThen, call, commit, andThen, reading.
    rewrite (str_eqb_neq (query s) (query (setQuery text s)))
      by (destruct s; cbn in *; congruence).
    assert (Hinv' : debounce_invariant (setQuery text s))
      by (destruct s; exact Hs).
    rewrite (debounce_effect_arms _ Hinv').
    destruct s. cbn. rewrite str_eqb_refl. reflexivity. }
  rewrite Hstep, debounce_effect_arms by (destruct s; exact Hs).
  destruct s. cbn. repeat split. eexists. repeat split.
Qed.

(** While the armed timer has not expired, time passing changes the clock
    only. *)
Lemma elapse_before_due (gap : Z) (t : Timer) (s : State) :
  timers s = [t] ->
  now s + Z.max 0 gap < due t ->
  step (Elapse gap) s = (set_now (now s + Z.max 0 gap) s, []).
Proof.
  intros Ht Hdue. cbn [step]. unfold elapse, reading at 1. rewrite Ht.
  cbn [fire_due]. unfold andThen, reading.
  replace (due t <=? now s + Z.max 0 gap) with false
    by (symmetry; apply Z.leb_gt; lia).
  reflexivity.
Qed.

(** Once it has expired, the timer fires: one emission, of the text it
    was armed for, and an empty table. *)
Lemma elapse_after_due (idle : Z) (t : Timer) (s : State) :
  timers s = [t] ->
  due t <= now s + Z.max 0 idle ->
  emissions (snd (step (Elapse idle) s)) = [closure_query t]
  /\ timers (fst (step (Elapse idle) s)) = [].
Proof.
  intros Ht Hdue. destruct s. cbn in Ht, Hdue. subst.
  cbn [step]. unfold elapse. exec. cbn [fire_due]. exec.
  replace (due t <=? now0 + Z.max 0 idle) with true
    by (symmetry; apply Z.leb_le; exact Hdue).
  unfold armed. exec. cbn [existsb filter]. rewrite Nat.eqb_refl.
  cbn [orb andb negb]. exec. rewrite str_eqb_refl.
  destruct (str_eqb debouncedQuery0 (closure_query t)); exec;
    cbn [filter]; rewrite Nat.eqb_refl; split; reflexivity.
Qed.

Lemma armed_for_invariant (text : jsstring) (s : State) :
  armed_for text s -> debounce_invariant s.
Proof.
  intros (id & Ht & Href & _). right. eexists.
  split; [eassumption | exact Href].
Qed.

Lemma keystrokes_quiet (rest : list (Z * jsstring)) :
  forall (text : jsstring) (s : State),
    armed_for text s ->
    Forall (fun k => 0 <= fst k < debounce_delay) rest ->
    each_changes text rest ->
    armed_for (final_text text rest) (fst (run (keystrokes rest) s))
    /\ emissions (snd (run (keystrokes rest) s)) = [].
Proof.
  induction rest as [|[gap text'] rest IH]; intros text s Harmed Hgaps Hchg.
  - split; [exact Harmed | reflexivity].
  - cbn [keystrokes run final_text].
    inversion Hgaps as [|? ? Hgap Hgaps']; subst. cbn [fst] in Hgap.
    destruct Hchg as [Hne Hchg].
    destruct Harmed as (id & Ht & Href & Hq).
    rewrite !andThen_fst, !andThen_snd, !emissions_app.
    rewrite (elapse_before_due gap _ s Ht) by (cbn [due]; lia).
    cbn [fst snd emissions flat_map app].
    set (s1 := set_now (now s + Z.max 0 gap) s).
    assert (Hs1 : debounce_invariant s1).
    { right.
      exists {| handle := id; due := now s + debounce_delay;
                closure_query := text |}.
      subst s1. destruct s. cbn in *. split; assumption. }
    assert (Hq1 : text' <> query s1).
    { subst s1. destruct s. cbn in *. congruence. }
    destruct (change_arms text' s1 Hs1 Hq1) as (Harmed' & _ & Hout).
    rewrite Hout. cbn [emissions flat_map app].
    apply IH; assumption.
Qed.

(** A keystroke leaves the debounced query alone. *)
Lemma change_keeps_debounced (text : jsstring) (s : State) :
  debounce_invariant s ->
  text <> query s ->
  debouncedQuery (fst (step (Change text) s)) = debouncedQuery s.
Proof.
  intros Hs Hne.
  assert (Hstep : step (Change text) s =
                  debounce_effect (setQuery text s)).
  { cbn [step control]. unfold reading at 1. unfold dispatch, reading at 1.
    unfold andThen, call, commit, andThen, reading.
    rewrite (str_eqb_neq (query s) (query (setQuery text s)))
      by (destruct s; cbn in *; congruence).
    assert (Hinv' : debounce_invariant (setQuery text s))
      by (destruct s; exact Hs).
    rewrite (debounce_effect_arms _ Hinv').
    destruct s. cbn. rewrite str_eqb_refl. reflexivity. }
  rewrite Hstep, debounce_effect_arms by (destruct s; exact Hs).
  destruct s. reflexivity.
Qed.

(** So does a burst of keystrokes none of whose timers expires. *)
Lemma keystrokes_keep_debounced (rest : list (Z * jsstring)) :
  forall (text : jsstring) (s : State),
    armed_for text s ->
    Forall (fun k => 0 <= fst k < debounce_delay) rest ->
    each_changes text rest ->
    debouncedQuery (fst (run (keystrokes rest) s)) = debouncedQuery s.
Proof.
  induction rest as [|[gap text'] rest IH]; intros text s Harmed Hgaps Hchg.
  - reflexivity.
  - cbn [keystrokes run].
    inversion Hgaps as [|? ? Hgap Hgaps']; subst. cbn [fst] in Hgap.
    destruct Hchg as [Hne Hchg].
    destruct Harmed as (id & Ht & Href & Hq).
    rewrite !andThen_fst.
    rewrite (elapse_before_due gap _ s Ht) by (cbn [due]; lia).
    cbn [fst].
    set (s1 := set_now (now s + Z.max 0 gap) s).
    assert (Hs1 : debounce_invariant s1).
    { right.
      exists {| handle := id; due := now s + debounce_delay;
                closure_query := text |}.
      subst s1. destruct s. cbn in *. split; assumption. }
    assert (Hq1 : text' <> query s1).
    { subst s1. destruct s. cbn in *. congruence. }
    destruct (change_arms text' s1 Hs1 Hq1) as (Harmed' & _ & _).
    rewrite (IH text' _ Harmed' Hgaps' Hchg).
    rewrite (change_keeps_debounced text' s1 Hs1 Hq1).
    subst s1. destruct s. reflexivity.
Qed.

(** The callback of the expired timer stores the text it was armed for
    as the debounced query and leaves the input alone. *)
Lemma elapse_after_due_state (idle : Z) (t : Timer) (s : State) :
  timers s = [t] ->
  due t <= now s + Z.max 0 idle ->
  debouncedQuery (fst (step (Elapse idle) s)) = closure_query t
  /\ query (fst (step (Elapse idle) s)) = query s.
Proof.
  intros Ht Hdue. destruct s. cbn in Ht, Hdue. subst.
  cbn [step]. unfold elapse. exec. cbn [fire_due]. exec.
  replace (due t <=? now0 + Z.max 0 idle) with true
    by (symmetry; apply Z.leb_le; exact Hdue).
  unfold armed. exec. cbn [existsb filter]. rewrite Nat.eqb_refl.
  cbn [orb andb negb]. exec. rewrite str_eqb_refl.
  destruct (str_eqb debouncedQuery0 (closure_query t)); exec;
    split; reflexivity.
Qed.

(** With no timer in the table, time passing changes the clock only. *)
Lemma elapse_idle (more : Z) (s : State) :
  timers s = [] ->
  step (Elapse more) s = (set_now (now s + Z.max 0 more) s, []).
Proof.
  intros Ht. cbn [step]. unfold elapse, reading at 1. rewrite Ht.
  cbn [fire_due]. reflexivity.
Qed.

(** C2. In every state the mounted component can reach, a burst of
    keystrokes, each changing the text and each less than the debounce
    delay after the one before, followed by a pause of at least the
    delay, yields exactly one debounced-query emission: none while the
    burst lasts, and after the last keystroke one, of the text of that
    keystroke. At every moment of the burst (after every prefix of its
    events) the timer table holds at most one timer. The emission is the
    write of the debounced query: during the burst the debounced query
    keeps its value and the table holds exactly the timer armed by the
    last keystroke, for its text; after the pause the debounced query is
    the text of the last keystroke, the timer is gone from the table,
    and no further wait emits or requests anything. *)
Theorem debounce_emits_once (history : list Event) (first : jsstring)
  (rest : list (Z * jsstring)) (idle : Z) :
  let s := fst (run history (fst (mount initial))) in
  first <> query s ->
  each_changes first rest ->
  Forall (fun k => 0 <= fst k < debounce_delay) rest ->
  debounce_delay <= idle ->
  let burst := run (Change first :: keystrokes rest) s in
  let after := run (typing first rest idle) s in
  emissions (snd burst) = []
  /\ emissions (snd after) = [final_text first rest]
  /\ (forall n : nat,
        (length (timers (fst (run (firstn n (typing first rest idle)) s)))
         <= 1)%nat)
  /\ debouncedQuery (fst burst) = debouncedQuery s
  /\ armed_for (final_text first rest) (fst burst)
  /\ debouncedQuery (fst after) = final_text first rest
  /\ query (fst after) = final_text first rest
  /\ timers (fst after) = []
  /\ (forall more : Z, snd (step (Elapse more) (fst after)) = []).
Proof.
  intros s Hfirst Hchanges Hgaps Hidle burst after.
  assert (Hs : debounce_invariant s)
    by (apply run_invariant, mount_invariant).
  destruct (change_arms first s Hs Hfirst) as (Harmed & _ & Hout).
  destruct (keystrokes_quiet rest first _ Harmed Hgaps Hchanges)
    as (Hfinal & Hquiet).
  assert (Hburst : emissions (snd burst) = []).
  { subst burst. cbn [run]. rewrite andThen_snd, emissions_app, Hout, Hquiet.
    reflexivity. }
  assert (Hstate : fst after = fst (step (Elapse idle) (fst burst))).
  { subst after burst. unfold typing.
    change (Change first :: keystrokes rest ++ [Elapse idle])
      with ((Change first :: keystrokes rest) ++ [Elapse idle]).
    rewrite run_app, andThen_fst. cbn [run]. rewrite andThen_fst.
    reflexivity. }
  assert (Hfinal' : armed_for (final_text first rest) (fst burst)).
  { subst burst. cbn [run]. rewrite andThen_fst. exact Hfinal. }
  destruct Hfinal' as (id & Ht & Href & Hq).
  assert (Hdue : due {| handle := id; due := now (fst burst) + debounce_delay;
                        closure_query := final_text first rest |}
                 <= now (fst burst) + Z.max 0 idle)
    by (cbn [due]; lia).
  destruct (elapse_after_due idle _ _ Ht Hdue) as [Hemit Htimers].
  destruct (elapse_after_due_state idle _ _ Ht Hdue) as [Hdebounced Hquery].
  split; [exact Hburst|]. split.
  - subst after. unfold typing.
    change (Change first :: keystrokes rest ++ [Elapse idle])
      with ((Change first :: keystrokes rest) ++ [Elapse idle]).
    rewrite run_app, andThen_snd, emissions_app.
    fold burst. rewrite Hburst.
    cbn [run app]. rewrite andThen_snd. cbn [skip snd].
    rewrite app_nil_r. exact Hemit.
  - split; [intros n; apply invariant_one_timer, run_invariant; exact Hs|].
    split.
    { subst burst. cbn [run]. rewrite andThen_fst.
      rewrite (keystrokes_keep_debounced rest first _ Harmed Hgaps Hchanges).
      now apply change_keeps_debounced. }
    split; [exists id; split; [exact Ht | split; [exact Href | exact Hq]]|].
    rewrite Hstate.
    split; [exact Hdebounced|].
    split; [rewrite Hquery; exact Hq|].
    split; [exact Htimers|].
    intros more. now rewrite (elapse_idle more _ Htimers).
Qed.

(** *** Explicit submit *)

(** [handleSearch] starts a search for the text of the input on page 1
    and touches neither the timer table nor the ref. *)
Lemma submit_searches (s : State) :
  loading s = false ->
  step SubmitForm s =
  (set_next_request (S (next_request s))
     (set_pending (pending s ++ [{| request := next_request s;
                                    searchQuery := query s;
                                    requested_page := 1;
                                    startTime := now s |}])
        (setError None (setLoading true (setCurrentPage 1 s)))),
   [Fetch (query s) 1 pageSize]).
Proof.
  intros Hloading. cbn [step]. unfold reading at 1. cbn [control].
  rewrite Hloading. destruct s. exec. rewrite !str_eqb_refl. reflexivity.
Qed.

(** The effects of the armed timer expiring: the emission, and a search
    when the emitted text differs from the debounced query. *)
Lemma elapse_fires (idle : Z) (t : Timer) (s : State) :
  timers s = [t] ->
  due t <= now s + Z.max 0 idle ->
  snd (step (Elapse idle) s) =
  DebounceEmit (closure_query t)
    :: (if str_eqb (debouncedQuery s) (closure_query t) then []
        else [Fetch (closure_query t) 1 pageSize]).
Proof.
  intros Ht Hdue. destruct s. cbn in Ht, Hdue. subst.
  cbn [step]. unfold elapse. exec. cbn [fire_due]. exec.
  replace (due t <=? now0 + Z.max 0 idle) with true
    by (symmetry; apply Z.leb_le; exact Hdue).
  unfold armed. exec. cbn [existsb filter]. rewrite Nat.eqb_refl.
  cbn [orb andb negb]. exec. rewrite str_eqb_refl.
  destruct (str_eqb debouncedQuery0 (closure_query t)); reflexivity.
Qed.

(** C6, evaluated on the code. With a debounce timer pending and the
    submit button enabled, the explicit submit resets the page to 1 and
    at once issues the request for (query, 1), but it does not cancel the
    timer: the table still holds it afterwards, and when the timer
    expires it emits its text and, the text differing from the debounced
    query, triggers a second search. *)
Theorem submit_leaves_debounce_armed (s : State) (t : Timer) (idle : Z) :
  timers s = [t] ->
  loading s = false ->
  closure_query t <> debouncedQuery s ->
  due t <= now s + Z.max 0 idle ->
  let submitted := fst (step SubmitForm s) in
  snd (step SubmitForm s) = [Fetch (query s) 1 pageSize]
  /\ currentPage submitted = 1
  /\ timers submitted = [t]
  /\ snd (step (Elapse idle) submitted) =
     [DebounceEmit (closure_query t); Fetch (closure_query t) 1 pageSize].
Proof.
  intros Ht Hloading Hne Hdue submitted. subst submitted.
  rewrite (submit_searches s Hloading). cbn [fst snd].
  split; [reflexivity|].
  split; [destruct s; reflexivity|].
  split; [destruct s; exact Ht|].
  rewrite (elapse_fires idle t).
  - replace (str_eqb _ (closure_query t)) with false; [reflexivity|].
    symmetry. apply str_eqb_neq. destruct s. cbn in *. congruence.
  - destruct s. exact Ht.
  - destruct s. exact Hdue.
Qed.

End Controller.

(** *** The properties on the sample runs *)

Import Samples.

Lemma responses_applied_in_arrival_order_witness :
  let s := fst (@run chrome overlapping ready) in
  let s1 := fst (@step chrome (Settle 4 new_page) s) in
  let s2 := fst (@step chrome (Settle 3 old_page) s1) in
  (map searchQuery (pending s) = [lit "old"; lit "new"] /\ (3 < 4)%nat)
  /\ results s1 = [new_paper]
  /\ results s2 = [old_paper].
Proof.
  split; [split; [reflexivity | lia]|].
  destruct (@responses_applied_in_arrival_order chrome
              (fst (@run chrome overlapping ready)) 3%nat 4%nat
              {| request := 3; searchQuery := lit "old";
                 requested_page := 1; startTime := 0 |}
              {| request := 4; searchQuery := lit "new";
                 requested_page := 1; startTime := 5000 |}
              200 200
              {| Api.results := [old_paper]; total := 7; page := 1;
                 size := 10; total_pages := 1 |}
              {| Api.results := [new_paper]; total := 1; page := 1;
                 size := 10; total_pages := 1 |}
              eq_refl eq_refl ltac:(lia) eq_refl eq_refl)
    as [[Hnew _] [Hold _]].
  split; [exact Hnew | exact Hold].
Defined.

(** C1, refuted as stated. The request for "old" was issued before the
    request for "new"; the response for "new" arrives first and is
    applied, then the response for "old" arrives and replaces the
    results, the totals and the page, although the query is "new". *)
Lemma stale_response_overwrites :
  let s := fst (@run chrome overlapping ready) in
  let s1 := fst (@step chrome (Settle 4 new_page) s) in
  let s2 := fst (@step chrome (Settle 3 old_page) s1) in
  map (fun p => (request p, searchQuery p, requested_page p)) (pending s)
  = [(3%nat, lit "old", 1); (4%nat, lit "new", 1)]
  /\ (results s1 = [new_paper] /\ totalResults s1 = 1 /\ totalPages s1 = 1)
  /\ (query s2 = lit "new" /\ debouncedQuery s2 = lit "new")
  /\ (results s2 = [old_paper] /\ totalResults s2 = 7 /\ totalPages s2 = 1)
  /\ results s2 <> results s1.
Proof.
  cbv zeta. repeat split; try reflexivity.
  vm_compute. discriminate.
Qed.

Lemma current_page_button_requests_again_witness :
  (1 < totalPages ready /\ 1 <= currentPage ready <= totalPages ready)
  /\ exists index : nat,
       nth_error (Pagination.getVisiblePages 1 3) index
       = Some (Pagination.PageNumber 1)
       /\ snd (@step chrome (ClickPage index) ready)
          = [Fetch [] 1 10; ScrollToTop].
Proof.
  assert (Hpages : 1 < totalPages ready) by (vm_compute; reflexivity).
  assert (Hrange : 1 <= currentPage ready <= totalPages ready)
    by (vm_compute; split; discriminate).
  split; [split; assumption|].
  destruct (@current_page_button_requests_again chrome ready Hpages Hrange)
    as (index & Hindex & Hstep).
  exists index. split; [exact Hindex|]. now rewrite Hstep.
Defined.

(** C5, refuted as stated. In the Ready state on page 1 of 3, the first
    page button is the button of the current page; clicking it issues a
    network request and raises the loading flag. *)
Lemma same_page_click_is_not_a_no_op :
  phase ready = Ready
  /\ currentPage ready = 1
  /\ nth_error (Pagination.getVisiblePages (currentPage ready)
                                            (totalPages ready)) 0
     = Some (Pagination.PageNumber 1)
  /\ snd (@step chrome (ClickPage 0) ready) = [Fetch [] 1 10; ScrollToTop]
  /\ loading (fst (@step chrome (ClickPage 0) ready)) = true
  /\ fst (@step chrome (ClickPage 0) ready) <> ready.
Proof.
  repeat split; try reflexivity.
  intros H. apply (f_equal loading) in H. vm_compute in H. discriminate.
Qed.





Lemma debounce_emits_once_witness :
  let after :=
    @run chrome (typing (lit "m") [(1000, lit "ml")] 4000) ready in
  (lit "m" <> query ready /\ 0 <= 1000 < debounce_delay
   /\ debounce_delay <= 4000)
  /\ emissions (snd after) = [lit "ml"]
  /\ debouncedQuery (fst after) = lit "ml"
  /\ timers (fst after) = [].
Proof.
  intros after.
  split; [split; [discriminate | split; [split; [discriminate | reflexivity]
                                        | discriminate]]|].
  destruct (@debounce_emits_once chrome
              [Settle 1 first_page; Settle 2 first_page]
              (lit "m") [(1000, lit "ml")] 4000)
    as (_ & Hemit & _ & _ & _ & Hdebounced & _ & Htimers & _).
  - discriminate.
  - split; [discriminate | exact I].
  - constructor; [split; [discriminate | reflexivity] | constructor].
  - discriminate.
  - split; [exact Hemit | split; [exact Hdebounced | exact Htimers]].
Defined.

Lemma submit_leaves_debounce_armed_witness :
  let s := fst (@run chrome [Change (lit "ml"); Elapse 1000] ready) in
  (timers s = [{| handle := 2; due := 4000; closure_query := lit "ml" |}]
   /\ loading s = false /\ debouncedQuery s = [])
  /\ requests (snd (@run chrome [SubmitForm; Elapse 3000] s))
     = [(lit "ml", 1); (lit "ml", 1)].
Proof.
  intros s. split; [repeat split|].
  destruct (@submit_leaves_debounce_armed chrome s
              {| handle := 2; due := 4000; closure_query := lit "ml" |}
              3000 eq_refl eq_refl)
    as (Hsubmit & _ & _ & Hfire); [discriminate | discriminate |].
  assert (Hquery : query s = lit "ml") by reflexivity.
  clearbody s. cbn [run]. rewrite !andThen_snd.
  rewrite Hsubmit, Hfire, Hquery. reflexivity.
Defined.

End SearchProps.

(** ** The local sort *)

Module SortProps.

Import Api Search Samples.

(** Runs [handleSortChange] up to the call of the engine's sort. *)
Ltac sort_call :=
  cbv beta iota zeta delta
    [handleSortChange reading andThen call setSortBy setSortOrder setResults
     results fst snd Array_sort V8.environment];
  match goal with
  | |- context [Build_Environment ?parse ?lower _ ?notify] =>
      fold (V8.environment parse lower notify)
  end.

(** V8 on an array of two elements: it calls the comparator once, on the
    second and the first element, and swaps them when the answer is
    negative. *)
Lemma ArrayTimSort_pair {A : Type} (comparefn : A -> A -> Z) (a b : A) :
  V8.ArrayTimSort comparefn [a; b] =
  if comparefn b a <? 0 then [b; a] else [a; b].
Proof.
  unfold V8.ArrayTimSort, V8.CountAndMakeRun. cbn.
  destruct (comparefn b a <? 0); reflexivity.
Qed.

(** When the comparator answers a negative number on every two elements
    of the array, the whole array is one descending run for V8, which
    reverses it. *)
Lemma run_tail_all_negative {A : Type} (comparefn : A -> A -> Z)
  (rest : list A) :
  forall previousElement : A,
    (forall x y, In x (previousElement :: rest) ->
                 In y (previousElement :: rest) -> comparefn x y < 0) ->
    V8.run_tail comparefn true previousElement rest = length rest.
Proof.
  induction rest as [|currentElement rest IH]; intros previousElement Hneg;
    cbn [V8.run_tail length]; [reflexivity|].
  assert (Horder : comparefn currentElement previousElement < 0)
    by (apply Hneg; simpl; auto).
  replace (comparefn currentElement previousElement >=? 0) with false
    by (symmetry; rewrite Z.geb_leb; apply Z.leb_gt; exact Horder).
  f_equal. apply IH. intros x y Hx Hy. apply Hneg; right; assumption.
Qed.

Lemma ArrayTimSort_all_negative {A : Type} (comparefn : A -> A -> Z)
  (array : list A) :
  (forall x y, In x array -> In y array -> comparefn x y < 0) ->
  V8.ArrayTimSort comparefn array = rev array.
Proof.
  intros Hneg. unfold V8.ArrayTimSort.
  destruct array as [|a [|b rest]]; [reflexivity | reflexivity |].
  cbn [length Nat.ltb Nat.leb V8.CountAndMakeRun].
  assert (Horder : (comparefn b a <? 0) = true)
    by (apply Z.ltb_lt, Hneg; simpl; auto).
  rewrite Horder.
  rewrite run_tail_all_negative
    by (intros x y Hx Hy; apply Hneg; right; assumption).
  change (2 + length rest)%nat with (length (a :: b :: rest)).
  rewrite firstn_all, skipn_all, app_nil_r.
  rewrite <- length_rev at 1. rewrite firstn_all.
  rewrite <- length_rev. rewrite skipn_all. reflexivity.
Qed.

Section Comparator.
Context {env : Environment}.

(** The comparator never answers 0. *)
Lemma compare_results_never_zero (newSortBy : jsstring)
  (newSortOrder : SortOrder) (a b : Publication) :
  compare_results newSortBy newSortOrder a b = 1
  \/ compare_results newSortBy newSortOrder a b = -1.
Proof.
  unfold compare_results.
  destruct (str_eqb newSortBy (lit "published_date"));
    [|destruct (str_eqb newSortBy (lit "title"))];
    destruct newSortOrder;
    match goal with
    | |- context [if ?c then 1 else -1] => destruct c; auto
    end.
Qed.

Lemma num_lt_tie (x y : Q) : (x == y)%Q -> num_lt (Num x) (Num y) = false.
Proof. intros H. unfold num_lt. apply Qeq_alt in H. now rewrite H. Qed.

(** On two publications of equal score it answers -1 whichever comes
    first: each is to precede the other. *)
Lemma compare_results_tie (newSortOrder : SortOrder) (a b : Publication)
  (x y : Q) :
  score a = Num x -> score b = Num y -> (x == y)%Q ->
  compare_results (lit "relevance") newSortOrder a b = -1
  /\ compare_results (lit "relevance") newSortOrder b a = -1.
Proof.
  intros Ha Hb Hxy. unfold compare_results. cbn [str_eqb lit].
  change (str_eqb (lit "relevance") (lit "published_date")) with false.
  change (str_eqb (lit "relevance") (lit "title")) with false.
  cbv iota. rewrite Ha, Hb. unfold num_gt.
  rewrite (num_lt_tie x y Hxy), (num_lt_tie y x (Qeq_sym _ _ Hxy)).
  destruct newSortOrder; split; reflexivity.
Qed.

(** The key of the empty date is [NaN], not the epoch. *)
Lemma date_key_empty : date_key [] = NaN.
Proof. reflexivity. Qed.

(** When the date of either publication gives [NaN] it answers -1, in
    both directions. *)
Lemma compare_results_NaN (newSortOrder : SortOrder) (a b : Publication) :
  date_key (published_date a) = NaN \/ date_key (published_date b) = NaN ->
  compare_results (lit "published_date") newSortOrder a b = -1.
Proof.
  intros H. unfold compare_results.
  change (str_eqb (lit "published_date") (lit "published_date")) with true.
  cbv iota. unfold num_gt.
  destruct H as [-> | ->]; destruct newSortOrder;
    destruct (date_key _); reflexivity.
Qed.

End Comparator.

(** C4, evaluated on the code. The comparator returns -1 for two
    publications of equal score in either order, so it tells the engine of
    every result of a page of equal scores that it precedes every other:
    under V8 the sort by relevance, in either direction, reverses such a
    page (the equal keys do not keep their order), and sorting the list
    so obtained, which is sorted by that spec, reverses it back (the sort
    is not idempotent). *)
Theorem tied_results_reversed (parse : jsstring -> number)
  (lower : jsstring -> jsstring) (notify : bool) (order : SortOrder)
  (x : Q) (s : State) :
  Forall (fun p => exists y, score p = Num y /\ (y == x)%Q) (results s) ->
  let sort :=
    @handleSortChange (V8.environment parse lower notify)
                      (lit "relevance") order in
  let once := fst (sort s) in
  let twice := fst (sort once) in
  results once = rev (results s) /\ results twice = results s.
Proof.
  intros Htied sort once twice.
  assert (Hsort : forall t,
             Forall (fun p => exists y, score p = Num y /\ (y == x)%Q)
                    (results t) ->
             results (fst (sort t)) = rev (results t)).
  { intros t Ht. subst sort. destruct t. cbn [results] in *. sort_call.
    apply ArrayTimSort_all_negative. intros a b Ha Hb.
    rewrite Forall_forall in Ht.
    destruct (Ht a Ha) as (ya & Hsa & Hya).
    destruct (Ht b Hb) as (yb & Hsb & Hyb).
    assert (Hab : (ya == yb)%Q) by (rewrite Hya, Hyb; reflexivity).
    destruct (@compare_results_tie (V8.environment parse lower notify)
                order a b ya yb Hsa Hsb Hab) as [-> _].
    reflexivity. }
  assert (Honce : results once = rev (results s)) by (apply Hsort, Htied).
  split; [exact Honce|].
  subst twice. rewrite Hsort.
  - fold once. rewrite Honce. apply rev_involutive.
  - fold once. rewrite Honce. apply Forall_rev. exact Htied.
Qed.

Lemma tied_results_reversed_witness :
  let s := setResults [old_paper; tied_paper] ready in
  let once := fst (@handleSortChange chrome (lit "relevance") desc s) in
  let twice := fst (@handleSortChange chrome (lit "relevance") desc once) in
  (score old_paper = Num (1 # 2) /\ score tied_paper = Num (1 # 2))
  /\ results once = [tied_paper; old_paper]
  /\ results twice = [old_paper; tied_paper].
Proof.
  split; [split; reflexivity|].
  apply (tied_results_reversed sample_parse ascii_lower true desc (1 # 2)
           (setResults [old_paper; tied_paper] ready)).
  repeat constructor; exists (1 # 2); split; reflexivity.
Defined.

(** C7, evaluated on the code. The key of an empty or unrecognised date
    is [NaN], not the epoch, and every comparison with it answers -1:
    under V8 the sort by published_date, in either direction, swaps a page
    of two results as soon as one of them has such a date. The undated
    result therefore goes last under ascending order when it was first,
    and first under descending order when it was last. *)
Theorem undated_results_swapped (parse : jsstring -> number)
  (lower : jsstring -> jsstring) (notify : bool) (order : SortOrder)
  (a b : Publication) (s : State) :
  let env := V8.environment parse lower notify in
  @date_key env (published_date a) = NaN
  \/ @date_key env (published_date b) = NaN ->
  results s = [a; b] ->
  @date_key env [] = NaN
  /\ results (fst (@handleSortChange env (lit "published_date") order s))
     = [b; a].
Proof.
  intros env Hkey Hresults. split; [reflexivity|].
  subst env. destruct s. cbn in Hresults. subst. sort_call.
  rewrite ArrayTimSort_pair.
  rewrite (@compare_results_NaN (V8.environment parse lower notify)
             order b a) by tauto.
  reflexivity.
Qed.

Lemma undated_results_swapped_witness :
  let ascending (l : list Publication) :=
    results (fst (@handleSortChange chrome (lit "published_date") asc
                                    (setResults l ready))) in
  let descending (l : list Publication) :=
    results (fst (@handleSortChange chrome (lit "published_date") desc
                                    (setResults l ready))) in
  published_date undated_paper = []
  /\ ascending [undated_paper; old_paper] = [old_paper; undated_paper]
  /\ descending [old_paper; undated_paper] = [undated_paper; old_paper].
Proof.
  split; [reflexivity|]. split.
  - exact (proj2 (undated_results_swapped sample_parse ascii_lower true asc
                    undated_paper old_paper
                    (setResults [undated_paper; old_paper] ready)
                    (or_introl eq_refl) eq_refl)).
  - exact (proj2 (undated_results_swapped sample_parse ascii_lower true desc
                    old_paper undated_paper
                    (setResults [old_paper; undated_paper] ready)
                    (or_intror eq_refl) eq_refl)).
Defined.

(** On a page of three results the undated one ends between the two dated
    ones under ascending order. *)
Example undated_result_in_the_middle :
  map title
    (results (fst (@handleSortChange chrome (lit "published_date") asc
                     (setResults [new_paper; undated_paper; old_paper]
                                 ready))))
  = [lit "Old"; lit "Undated"; lit "New"].
Proof. reflexivity. Qed.

End SortProps.

(** ** The classification flow *)

Module ClassificationProps.

Import Classification StringProps.

(** C9. When the text is empty or consists of white space only (that is,
    when nothing is left of it after trimming), [handleClassify] fails
    locally: it stores the validation message, leaves the text, the
    result, the loading flag and the model alone and makes no network
    request. The classification request is made exactly when the trimmed
    text is not empty, and then for the text and the model of the
    instance. *)
Theorem handleClassify_guard (s : State) :
  (forallb is_whitespace (text s) = true <-> trim (text s) = [])
  /\ (trim (text s) = [] ->
      handleClassify s =
      (setError (Some (lit "Please enter some text to classify")) s, [])
      /\ truthy (lit "Please enter some text to classify") = true)
  /\ (trim (text s) <> [] ->
      snd (handleClassify s) = [ClassifyText (text s) (modelType s)])
  /\ (forall request, In request (snd (handleClassify s)) ->
      trim (text s) <> []).
Proof.
  split; [symmetry; apply trim_nil|].
  unfold handleClassify.
  destruct (trim (text s)) as [|c rest] eqn:Htrim; cbn [truthy negb].
  - split; [intros _; split; reflexivity|].
    split; [intros H; now contradiction H|].
    intros request [].
  - split; [discriminate|].
    split; [reflexivity|].
    intros _ _. discriminate.
Qed.

Lemma handleClassify_guard_witness :
  let blank := {| text := lit "   "; result := None; loading := false;
                  error := None; modelType := naive_bayes;
                  modelInfo := None |} in
  trim (text blank) = []
  /\ error (fst (handleClassify blank))
     = Some (lit "Please enter some text to classify")
  /\ snd (handleClassify blank) = [].
Proof.
  intros blank. split; [reflexivity|].
  destruct (handleClassify_guard blank) as (_ & Hlocal & _).
  destruct (Hlocal eq_refl) as [-> _]. split; reflexivity.
Defined.

End ClassificationProps.

(** ** More on the page list *)

Module PaginationMore.

Import Pagination PageList PaginationProps.

(** Splits on the four cases of the page list; the short list is
    computed for each of its seven totals. *)
Ltac page_cases current total :=
  rewrite getVisiblePages_refines; unfold visiblePages;
  destruct (Z.leb_spec total 7);
  [ assert (total = 1 \/ total = 2 \/ total = 3 \/ total = 4 \/ total = 5
            \/ total = 6 \/ total = 7)
      as [-> | [-> | [-> | [-> | [-> | [-> | ->]]]]]] by lia;
    cbn [all_pages seq Z.to_nat Pos.to_nat Pos.iter_op Init.Nat.add
         Z.of_nat Pos.of_succ_nat Pos.succ]
  | destruct (Z.leb_spec current 4);
    [ | destruct (Z.leb_spec (total - 3) current) ] ];
  cbn [map app page_numbers flat_map well_spaced length].

Ltac forall_lia := repeat (apply Forall_cons; [lia|]); apply Forall_nil.
Ltac sorted_lia :=
  repeat (apply SSorted_cons; [|forall_lia]); apply SSorted_nil.

(** X1. For 1 <= current <= total the page numbers of the page list are
    strictly increasing (so no page is listed twice), all lie in
    1..total, and the list has min(total, 7) entries. *)
Theorem visible_pages_increasing (current total : Z) :
  1 <= current <= total ->
  let pages := getVisiblePages current total in
  StronglySorted Z.lt (page_numbers pages)
  /\ Forall (fun n => 1 <= n <= total) (page_numbers pages)
  /\ Z.of_nat (length pages) = Z.min total 7.
Proof.
  intros Hrange pages. subst pages.
  assert (Hlength :
            Z.of_nat (length (getVisiblePages current total)) = Z.min total 7).
  { rewrite getVisiblePages_refines. unfold visiblePages.
    destruct (Z.leb_spec total 7); [rewrite all_pages_length; lia|].
    destruct (current <=? 4); [simpl; lia|].
    destruct (total - 3 <=? current); simpl; lia. }
  split; [|split; [|exact Hlength]]; clear Hlength;
    page_cases current total; first [sorted_lia | forall_lia].
Qed.

(** X2. For 1 <= current <= total the current page is in the page list,
    and so are the page before it (when current > 1) and the page after
    it (when current < total): the targets of Previous and Next are
    always on display. *)
Theorem neighbours_visible (current total : Z) :
  1 <= current <= total ->
  let pages := getVisiblePages current total in
  In (PageNumber current) pages
  /\ (1 < current -> In (PageNumber (current - 1)) pages)
  /\ (current < total -> In (PageNumber (current + 1)) pages).
Proof.
  intros Hrange pages. subst pages.
  split; [apply current_page_visible; exact Hrange|].
  rewrite getVisiblePages_refines. unfold visiblePages.
  destruct (Z.leb_spec total 7).
  - split; intros H'; apply all_pages_In; lia.
  - destruct (Z.leb_spec current 4);
      [assert (current = 1 \/ current = 2 \/ current = 3 \/ current = 4)
         as [-> | [-> | [-> | ->]]] by lia
      |destruct (Z.leb_spec (total - 3) current);
       [assert (current = total - 3 \/ current = total - 2
                \/ current = total - 1 \/ current = total)
          as [-> | [-> | [-> | ->]]] by lia|]];
      split; intros H'; simpl; try lia;
      solve [repeat first [left; f_equal; lia | right]].
Qed.

(** X3. For 1 <= current <= total the page list starts and ends with a
    page number, two page numbers next to each other are consecutive, and
    every ellipsis stands between two page numbers that leave out at
    least one page. *)
Theorem visible_pages_well_spaced (current total : Z) :
  1 <= current <= total ->
  well_spaced (getVisiblePages current total).
Proof.
  intros Hrange. page_cases current total; repeat split; lia.
Qed.


Lemma visible_pages_increasing_witness :
  1 <= 5 <= 20
  /\ page_numbers (getVisiblePages 5 20) = [1; 4; 5; 6; 20]
  /\ StronglySorted Z.lt [1; 4; 5; 6; 20].
Proof.
  split; [lia|]. split; [reflexivity|].
  exact (proj1 (visible_pages_increasing 5 20 ltac:(lia))).
Defined.

Lemma neighbours_visible_witness :
  1 <= 5 <= 20
  /\ In (PageNumber 4) (getVisiblePages 5 20)
  /\ In (PageNumber 6) (getVisiblePages 5 20).
Proof.
  split; [lia|].
  destruct (neighbours_visible 5 20 ltac:(lia)) as (_ & Hprev & Hnext).
  split; [apply Hprev | apply Hnext]; lia.
Defined.

Lemma visible_pages_well_spaced_witness :
  1 <= 18 <= 20 /\ well_spaced (getVisiblePages 18 20).
Proof. split; [lia|]. apply visible_pages_well_spaced. lia. Defined.

End PaginationMore.

(** ** More on the controller *)

Module ControllerMore.

Import Api Search Runtime StringProps SearchProps PaginationProps.

Lemma visible_page_in_range (current total n : Z) :
  1 <= current <= total ->
  In (Pagination.PageNumber n) (Pagination.getVisiblePages current total) ->
  1 <= n <= total.
Proof.
  intros Hrange. rewrite getVisiblePages_refines.
  unfold Pagination.visiblePages.
  destruct (Z.leb_spec total 7).
  - unfold Pagination.all_pages. rewrite in_map_iff.
    intros (k & Hk & Hin). injection Hk as <-. apply in_seq in Hin. lia.
  - destruct (Z.leb_spec current 4);
      [|destruct (Z.leb_spec (total - 3) current)];
      simpl; intros Hin;
      repeat match goal with
             | H : _ \/ _ |- _ => destruct H as [H | H]
             end;
      try contradiction; try discriminate; injection Hin as <-; lia.
Qed.

Create HintDb emits.
Create HintDb calls.

Section Controller.
Context {env : Environment}.

(** An event of a control runs the handler of the control, if any. *)
Lemma step_control (e : Event) (s : State) :
  match e with Elapse _ | Settle _ _ => False | _ => True end ->
  step e s = match control s e with
             | Some handler => dispatch handler s
             | None => (s, [])
             end.
Proof.
  destruct e; intros He; try contradiction; cbn [step]; unfold reading at 1;
    destruct (control s _); reflexivity.
Qed.

Lemma handlePageChange_any (page : Z) (s : State) :
  dispatch (handlePageChange page) s =
  (set_next_request (S (next_request s))
     (set_pending (pending s ++ [{| request := next_request s;
                                    searchQuery := query s;
                                    requested_page := page;
                                    startTime := now s |}])
        (setError None (setLoading true (setCurrentPage page s)))),
   [Fetch (query s) page pageSize; ScrollToTop]).
Proof. destruct s. exec. rewrite !str_eqb_refl. reflexivity. Qed.

(** X4. With the current page within 1..totalPages, a click on
    Previous, Next or a page entry either does nothing (the pagination is
    not rendered, the button is disabled, the entry is an ellipsis or
    missing) or requests exactly one page, for the current query, that
    lies within 1..totalPages, and makes it the current page. *)
Theorem pagination_stays_in_range (e : Event) (s : State) :
  pagination_control e = true ->
  1 <= currentPage s <= totalPages s ->
  step e s = (s, [])
  \/ exists page,
       1 <= page <= totalPages s
       /\ snd (step e s) = [Fetch (query s) page pageSize; ScrollToTop]
       /\ currentPage (fst (step e s)) = page
       /\ totalPages (fst (step e s)) = totalPages s.
Proof.
  intros He Hrange.
  assert (Hgo : forall page,
             1 <= page <= totalPages s ->
             control s e = Some (handlePageChange page) ->
             exists page,
               1 <= page <= totalPages s
               /\ snd (step e s) = [Fetch (query s) page pageSize; ScrollToTop]
               /\ currentPage (fst (step e s)) = page
               /\ totalPages (fst (step e s)) = totalPages s).
  { intros page Hpage Hcontrol. exists page. split; [exact Hpage|].
    assert (Hstep : step e s = dispatch (handlePageChange page) s).
    { destruct e; try discriminate He; cbn [step]; unfold reading at 1;
        now rewrite Hcontrol. }
    rewrite Hstep, handlePageChange_any. destruct s. repeat split. }
  assert (Hstay : control s e = None -> step e s = (s, [])).
  { intros Hcontrol.
    destruct e; try discriminate He; cbn [step]; unfold reading at 1;
      now rewrite Hcontrol. }
  destruct e; try discriminate He; cbn [control] in Hgo, Hstay.
  - destruct (totalPages s >? 1); [|left; now apply Hstay].
    destruct (Z.eqb_spec (currentPage s) 1); cbn [negb andb] in *;
      [left; now apply Hstay|].
    right. apply (Hgo (currentPage s - 1)); [lia | reflexivity].
  - destruct (totalPages s >? 1); [|left; now apply Hstay].
    destruct (Z.eqb_spec (currentPage s) (totalPages s)); cbn [negb andb] in *;
      [left; now apply Hstay|].
    right. apply (Hgo (currentPage s + 1)); [lia | reflexivity].
  - destruct (totalPages s >? 1); [|left; now apply Hstay].
    destruct (nth_error _ index) as [[page|]|] eqn:Hnth;
      [|left; now apply Hstay|left; now apply Hstay].
    right. apply (Hgo page); [|reflexivity].
    apply (visible_page_in_range (currentPage s)); [exact Hrange|].
    eapply nth_error_In. exact Hnth.
Qed.


(** The whole step of an armed timer expiring. *)
Lemma elapse_fire_step (idle : Z) (t : Timer) (s : State) :
  timers s = [t] ->
  due t <= now s + Z.max 0 idle ->
  step (Elapse idle) s =
  (if str_eqb (debouncedQuery s) (closure_query t) then
     (set_now (now s + Z.max 0 idle) (set_timers [] s),
      [DebounceEmit (closure_query t)])
   else
     (set_now (now s + Z.max 0 idle)
        (set_next_request (S (next_request s))
           (set_pending (pending s ++ [{| request := next_request s;
                                          searchQuery := closure_query t;
                                          requested_page := 1;
                                          startTime := Z.max (now s) (due t) |}])
              (setError None
                 (setLoading true
                    (setCurrentPage 1
                       (setDebouncedQuery (closure_query t)
                          (set_timers [] s))))))),
      [DebounceEmit (closure_query t); Fetch (closure_query t) 1 pageSize])).
Proof.
  intros Ht Hdue. destruct s. cbn in Ht, Hdue. subst.
  cbn [step]. unfold elapse. exec. cbn [fire_due]. exec.
  replace (due t <=? now0 + Z.max 0 idle) with true
    by (symmetry; apply Z.leb_le; exact Hdue).
  unfold armed. exec. cbn [existsb filter]. rewrite Nat.eqb_refl.
  cbn [orb andb negb]. exec. rewrite str_eqb_refl.
  destruct (str_eqb debouncedQuery0 (closure_query t)) eqn:E; exec;
    cbn [filter]; rewrite Nat.eqb_refl; cbn [negb].
  - apply str_eqb_eq in E. subst. reflexivity.
  - reflexivity.
Qed.

(** X5. When the armed debounce timer expires its text becomes the
    debounced query, the table is left empty and the input text is
    untouched. If the text equals the debounced query nothing else
    happens: no request, page and loading flag as they were. If it
    differs, the page is reset to 1, the loading flag is raised and
    one request, for (text, 1), is issued. The results on display stay
    in both cases. *)
Theorem debounce_fire (idle : Z) (t : Timer) (s : State) :
  timers s = [t] ->
  due t <= now s + Z.max 0 idle ->
  let s' := fst (step (Elapse idle) s) in
  let out := snd (step (Elapse idle) s) in
  debouncedQuery s' = closure_query t
  /\ query s' = query s
  /\ timers s' = []
  /\ (closure_query t = debouncedQuery s ->
      out = [DebounceEmit (closure_query t)]
      /\ currentPage s' = currentPage s
      /\ loading s' = loading s
      /\ results s' = results s)
  /\ (closure_query t <> debouncedQuery s ->
      out = [DebounceEmit (closure_query t); Fetch (closure_query t) 1 pageSize]
      /\ currentPage s' = 1
      /\ loading s' = true
      /\ results s' = results s).
Proof.
  intros Ht Hdue s' out. subst s' out.
  rewrite (elapse_fire_step idle t s Ht Hdue).
  destruct (str_eqb (debouncedQuery s) (closure_query t)) eqn:E.
  - apply str_eqb_eq in E. destruct s. cbn in *.
    do 3 (split; [congruence|]).
    split; [intros _; repeat split | intros H; congruence].
  - assert (Hne : closure_query t <> debouncedQuery s).
    { intros H. rewrite H, str_eqb_refl in E. discriminate. }
    destruct s. cbn in *.
    do 3 (split; [reflexivity|]).
    split; [intros H; contradiction | intros _; repeat split].
Qed.


(** X6. The clear action, reachable when the input is not empty: it
    empties the query and the debounced query, resets the page to 1,
    raises the loading flag and leaves the old results in place; it
    issues the request for ("", 1), twice when the debounced query was
    not empty (once from the handler, once from the debounced-query
    effect); the timer it leaves is armed for the empty text, and when
    that timer expires no further request is issued. *)
Theorem clear_search (s : State) :
  debounce_invariant s ->
  truthy (query s) = true ->
  let s' := fst (step ClickClear s) in
  query s' = []
  /\ debouncedQuery s' = []
  /\ currentPage s' = 1
  /\ loading s' = true
  /\ results s' = results s
  /\ armed_for [] s'
  /\ snd (step ClickClear s) =
     Fetch [] 1 pageSize
       :: (if truthy (debouncedQuery s) then [Fetch [] 1 pageSize] else [])
  /\ snd (step (Elapse debounce_delay) s') = [DebounceEmit []].
Proof.
  intros Hs Hquery s'.
  assert (Hfacts :
            query s' = [] /\ debouncedQuery s' = [] /\ currentPage s' = 1
            /\ loading s' = true /\ results s' = results s
            /\ armed_for [] s'
            /\ snd (step ClickClear s) =
               Fetch [] 1 pageSize
                 :: (if truthy (debouncedQuery s) then [Fetch [] 1 pageSize]
                     else [])).
  { assert (Hstep : step ClickClear s = dispatch handleClearSearch s).
    { cbn [step]. unfold reading at 1. cbn [control]. now rewrite Hquery. }
    subst s'. rewrite Hstep. clear Hstep.
    destruct s. cbn in Hquery.
    destruct query0 as [|c q]; [discriminate|].
    destruct Hs as [Hnil | (t & Ht & Href)]; cbn in *; subst.
    - destruct debouncedQuery0, debounceRef0; exec; cbn [filter str_eqb];
        exec; cbn [filter str_eqb truthy app];
        (repeat split; eexists; repeat split).
    - destruct debouncedQuery0; exec; cbn [filter str_eqb];
        rewrite ?Nat.eqb_refl; exec; cbn [filter str_eqb truthy app negb];
        exec; cbn [filter]; (repeat split; eexists; repeat split). }
  destruct Hfacts as (Hq & Hdq & Hpage & Hloading & Hresults & Harmed & Hout).
  repeat (split; [assumption|]).
  destruct Harmed as (id & Ht & _ & _).
  rewrite (elapse_fire_step debounce_delay _ _ Ht)
    by (cbn [due]; unfold debounce_delay; lia).
  cbn [closure_query]. rewrite Hdq. reflexivity.
Qed.

(** X7. A click on a suggestion that differs from the input text
    searches for (suggestion, 1) at once and arms the debounce timer for
    the suggestion without changing the debounced query; when that timer
    expires and the suggestion differs from the debounced query, the
    same search is issued a second time. *)
Theorem quick_search_searches_twice (suggestion : jsstring) (s : State) :
  debounce_invariant s ->
  control s (ClickSuggestion suggestion)
    = Some (handleQuickSearch suggestion) ->
  suggestion <> query s ->
  let s' := fst (step (ClickSuggestion suggestion) s) in
  snd (step (ClickSuggestion suggestion) s) = [Fetch suggestion 1 pageSize]
  /\ query s' = suggestion
  /\ debouncedQuery s' = debouncedQuery s
  /\ currentPage s' = 1
  /\ armed_for suggestion s'
  /\ (suggestion <> debouncedQuery s ->
      snd (step (Elapse debounce_delay) s') =
      [DebounceEmit suggestion; Fetch suggestion 1 pageSize]).
Proof.
  intros Hs Hcontrol Hne s'.
  assert (Hfacts :
            snd (step (ClickSuggestion suggestion) s)
              = [Fetch suggestion 1 pageSize]
            /\ query s' = suggestion
            /\ debouncedQuery s' = debouncedQuery s
            /\ currentPage s' = 1
            /\ armed_for suggestion s').
  { assert (Hstep : step (ClickSuggestion suggestion) s
                    = dispatch (handleQuickSearch suggestion) s).
    { cbn [step]. unfold reading at 1. now rewrite Hcontrol. }
    subst s'. rewrite Hstep. clear Hstep Hcontrol.
    assert (Hq : str_eqb (query s) suggestion = false)
      by (apply str_eqb_neq; congruence).
    destruct s. cbn in Hq, Hs.
    destruct Hs as [Hnil | (t & Ht & Href)]; cbn in *; subst.
    - destruct debounceRef0; exec; rewrite Hq; exec; cbn [filter];
        rewrite str_eqb_refl; (repeat split; eexists; repeat split).
    - exec. rewrite Hq. exec. cbn [filter]. rewrite !Nat.eqb_refl.
      cbn [negb filter]. exec. rewrite str_eqb_refl.
      repeat split; eexists; repeat split. }
  destruct Hfacts as (Hout & Hq & Hdq & Hpage & Harmed).
  repeat (split; [assumption|]).
  intros Hfresh. destruct Harmed as (id & Ht & _ & _).
  rewrite (elapse_fire_step debounce_delay _ _ Ht)
    by (cbn [due]; unfold debounce_delay; lia).
  cbn [closure_query]. rewrite Hdq.
  rewrite (str_eqb_neq (debouncedQuery s) suggestion) by congruence.
  reflexivity.
Qed.


(** X8. The sort controls are local: selecting a field or toggling the
    direction issues no request and leaves the query, the debounced
    query, the loading flag, the page, the totals, the error, the search
    time, the suspended calls and the timers as they were, whatever the
    engine's sort does. *)
Theorem sort_controls_are_local (e : Event) (s : State) :
  (exists value, e = SelectSort value) \/ e = ToggleSortOrder ->
  let s' := fst (step e s) in
  snd (step e s) = []
  /\ query s' = query s
  /\ debouncedQuery s' = debouncedQuery s
  /\ loading s' = loading s
  /\ currentPage s' = currentPage s
  /\ totalPages s' = totalPages s
  /\ totalResults s' = totalResults s
  /\ error s' = error s
  /\ searchTime s' = searchTime s
  /\ pending s' = pending s
  /\ timers s' = timers s.
Proof.
  intros He s'. subst s'.
  assert (Hsort : forall field order,
             let r := dispatch (handleSortChange field order) s in
             snd r = []
             /\ query (fst r) = query s
             /\ debouncedQuery (fst r) = debouncedQuery s
             /\ loading (fst r) = loading s
             /\ currentPage (fst r) = currentPage s
             /\ totalPages (fst r) = totalPages s
             /\ totalResults (fst r) = totalResults s
             /\ error (fst r) = error s
             /\ searchTime (fst r) = searchTime s
             /\ pending (fst r) = pending s
             /\ timers (fst r) = timers s).
  { intros field order. destruct s. exec. rewrite !str_eqb_refl.
    repeat split. }
  destruct He as [[value ->] | ->]; rewrite step_control by exact I;
    cbn [control];
    destruct (negb (loading s) && (totalResults s >? 0));
    try apply Hsort; repeat split.
Qed.

(** X9. A keystroke changes the input text and, at most, the debounce
    timer: it issues no request and no emission and leaves the debounced
    query, the results, the loading flag, the page, the totals, the
    error and the suspended calls as they were. *)
Theorem keystroke_is_local (text : jsstring) (s : State) :
  let s' := fst (step (Change text) s) in
  snd (step (Change text) s) = []
  /\ query s' = text
  /\ debouncedQuery s' = debouncedQuery s
  /\ results s' = results s
  /\ loading s' = loading s
  /\ currentPage s' = currentPage s
  /\ totalPages s' = totalPages s
  /\ totalResults s' = totalResults s
  /\ error s' = error s
  /\ pending s' = pending s.
Proof.
  destruct s. cbn [step control]. exec.
  destruct (str_eqb query0 text); exec; [rewrite str_eqb_refl; repeat split|].
  destruct debounceRef0; exec; rewrite str_eqb_refl; repeat split.
Qed.

(** X10. The loading flag is lowered by whichever response arrives
    first: when two requests are in flight and one of them settles,
    successfully or not, the flag is false although the other request is
    still suspended. *)
Theorem spinner_stops_early (id other : nat) (p q : Pending)
  (response : FetchOutcome) (s : State) :
  find_pending id s = Some p ->
  find_pending other s = Some q ->
  other <> id ->
  let s' := fst (step (Settle id response) s) in
  loading s' = false /\ find_pending other s' = Some q.
Proof.
  intros Hid Hother Hne s'. subst s'. split.
  - cbn [step]. rewrite (settle_resume _ _ _ _ Hid).
    destruct (Api.searchPublications response) as [data|err].
    + match goal with
      | |- context [searchPublications_resume p (Fulfilled data) ?t] =>
          destruct (resume_fulfilled p data t) as (_ & _ & _ & _ & Hl & _)
      end.
      exact Hl.
    + rewrite resume_rejected. destruct s. reflexivity.
  - cbn [step]. now apply settle_keeps_pending.
Qed.



(** *** The shape of the requests *)

Lemma emits_only_andThen (P : Effect -> Prop) (c1 c2 : Cmd) :
  emits_only P c1 -> emits_only P c2 -> emits_only P (c1 ;; c2).
Proof.
  intros H1 H2 s. rewrite andThen_snd. apply Forall_app. split; auto.
Qed.

Lemma emits_only_reading (P : Effect -> Prop) (k : State -> Cmd) :
  (forall s, emits_only P (k s)) -> emits_only P (reading k).
Proof. intros H s. apply H. Qed.

Lemma emits_only_skip (P : Effect -> Prop) : emits_only P skip.
Proof. intros s. constructor. Qed.

Lemma emits_only_call (P : Effect -> Prop) (f : State -> State) :
  emits_only P (call f).
Proof. intros s. constructor. Qed.

Lemma emits_only_emit (P : Effect -> Prop) (e : Effect) :
  P e -> emits_only P (emit e).
Proof. intros He s. repeat constructor. exact He. Qed.

#[local] Hint Resolve emits_only_andThen emits_only_reading emits_only_skip
  emits_only_call emits_only_emit : emits.

Lemma emits_only_searchPublications (P : Effect -> Prop) (q : jsstring)
  (pg : Z) :
  P (Fetch q pg pageSize) -> emits_only P (searchPublications q pg).
Proof. intros HP. unfold searchPublications. auto 10 with emits. Qed.

Lemma emits_only_clear_debounce (P : Effect -> Prop) :
  emits_only P clear_debounce.
Proof.
  unfold clear_debounce. apply emits_only_reading. intros s.
  destruct (debounceRef s); unfold clearTimeout; auto with emits.
Qed.

Lemma emits_only_commit (P : Effect -> Prop) (before : State) :
  (forall q, P (Fetch q 1 pageSize)) -> emits_only P (commit before).
Proof.
  intros HP. unfold commit.
  apply emits_only_andThen; apply emits_only_reading; intros s.
  - destruct (str_eqb _ _); [auto with emits|].
    unfold debounce_effect, debounce_effect_cleanup, debounce_effect_body,
      setTimeout_debounce.
    auto 10 using emits_only_clear_debounce with emits.
  - destruct (str_eqb _ _); [auto with emits|].
    unfold debounced_search_effect.
    auto 10 using emits_only_searchPublications with emits.
Qed.

Lemma emits_only_dispatch (P : Effect -> Prop) (handler : Cmd) :
  (forall q, P (Fetch q 1 pageSize)) ->
  emits_only P handler -> emits_only P (dispatch handler).
Proof.
  intros HP Hh. unfold dispatch. apply emits_only_reading. intros before.
  apply emits_only_andThen; [exact Hh | now apply emits_only_commit].
Qed.

Lemma emits_only_fire_due (P : Effect -> Prop) (limit : Z)
  (table : list Timer) :
  (forall q, P (Fetch q 1 pageSize)) ->
  (forall q, P (DebounceEmit q)) ->
  emits_only P (fire_due limit table).
Proof.
  intros HP HE. induction table as [|t table IH]; cbn [fire_due];
    [auto with emits|].
  apply emits_only_andThen; [|exact IH].
  apply emits_only_reading. intros s.
  destruct (_ && _); [|auto with emits].
  unfold fire, clearTimeout.
  apply emits_only_andThen;
    [apply emits_only_reading; intros ?; apply emits_only_call|].
  apply emits_only_andThen;
    [apply emits_only_reading; intros ?; apply emits_only_call|].
  apply emits_only_dispatch; [exact HP|].
  apply emits_only_andThen;
    [apply emits_only_emit, HE | apply emits_only_call].
Qed.

Lemma emits_only_settle (P : Effect -> Prop) (id : nat)
  (response : FetchOutcome) :
  (forall q, P (Fetch q 1 pageSize)) ->
  (forall total, P (ResultsChanged total)) ->
  emits_only P (settle id response).
Proof.
  intros HP HR. unfold settle. apply emits_only_reading. intros s.
  destruct (find_pending id s); [|auto with emits].
  apply emits_only_andThen; [auto with emits|].
  apply emits_only_dispatch; [exact HP|].
  unfold searchPublications_resume.
  destruct (Api.searchPublications response);
    [destruct (@onResultsChange env)|]; auto 12 with emits.
Qed.

Lemma emits_only_control (P : Effect -> Prop) (s : State) (e : Event)
  (handler : Cmd) :
  (forall q, P (Fetch q 1 pageSize)) ->
  (pagination_control e = true -> forall q pg, P (Fetch q pg pageSize)) ->
  P ScrollToTop ->
  control s e = Some handler ->
  emits_only P handler.
Proof.
  intros HP Hpg HS.
  destruct e; cbn [control]; intros H;
    repeat match type of H with
    | (if ?b then _ else _) = Some _ => destruct b
    | match ?x with _ => _ end = Some _ => destruct x
    | None = Some _ => discriminate
    | Some _ = Some _ => injection H as <-
    end;
    unfold handleSearch, handleClearSearch, handleQuickSearch,
      handleSortChange, handlePageChange;
    auto 12 using emits_only_searchPublications, emits_only_clear_debounce
      with emits.
Qed.

Lemma emits_only_step (P : Effect -> Prop) (e : Event) :
  (forall q, P (Fetch q 1 pageSize)) ->
  (pagination_control e = true -> forall q pg, P (Fetch q pg pageSize)) ->
  (forall q, P (DebounceEmit q)) ->
  (forall total, P (ResultsChanged total)) ->
  P ScrollToTop ->
  emits_only P (step e).
Proof.
  intros HP Hpg HE HR HS.
  assert (Hcontrol : forall e',
             (pagination_control e' = true ->
              forall q pg, P (Fetch q pg pageSize)) ->
             emits_only P
               (reading (fun s => match control s e' with
                                  | Some handler => dispatch handler
                                  | None => skip
                                  end))).
  { intros e' Hpg'. apply emits_only_reading. intros s.
    destruct (control s e') as [handler|] eqn:E; [|auto with emits].
    apply emits_only_dispatch; [exact HP|].
    exact (emits_only_control P s e' handler HP Hpg' HS E). }
  destruct e; try (apply Hcontrol; exact Hpg); cbn [step].
  - unfold elapse. apply emits_only_reading. intros s.
    apply emits_only_andThen; [now apply emits_only_fire_due|].
    auto with emits.
  - now apply emits_only_settle.
Qed.

(** X12. Every request the component issues asks for pages of
    [pageSize] = 10 results, and every request that does not come from a
    pagination control (typing, submit, clear, suggestions, the debounce
    timer, a response) asks for page 1. *)
Theorem requests_are_first_page (e : Event) (s : State) :
  Forall sized_request (snd (step e s))
  /\ (pagination_control e = false ->
      Forall first_page_request (snd (step e s))).
Proof.
  split.
  - apply emits_only_step; cbn; intros; reflexivity.
  - intros He. apply emits_only_step; cbn; intros; try congruence;
      repeat split.
Qed.


(** *** The bookkeeping of the requests *)

Lemma keeps_requests_andThen (limit : Z) (c1 c2 : Cmd) :
  keeps_requests limit c1 -> keeps_requests limit c2 ->
  keeps_requests limit (c1 ;; c2).
Proof.
  intros H1 H2 s Hs Hnow. rewrite andThen_fst.
  destruct (H1 s Hs Hnow) as [Hs1 Hnow1].
  destruct (H2 (fst (c1 s)) Hs1 (proj2 Hnow1)) as [Hs2 Hnow2].
  split; [exact Hs2 | lia].
Qed.

Lemma keeps_requests_reading (limit : Z) (k : State -> Cmd) :
  (forall s, keeps_requests limit (k s)) -> keeps_requests limit (reading k).
Proof. intros H s. apply H. Qed.

Lemma keeps_requests_skip (limit : Z) : keeps_requests limit skip.
Proof. intros s Hs Hnow. split; [exact Hs | cbn; lia]. Qed.

Lemma keeps_requests_emit (limit : Z) (e : Effect) :
  keeps_requests limit (emit e).
Proof. intros s Hs Hnow. split; [exact Hs | cbn; lia]. Qed.

(** A setter that leaves the suspended calls, the next number and the
    clock alone. *)
Lemma keeps_requests_call (limit : Z) (f : State -> State) :
  (forall s, pending (f s) = pending s
             /\ next_request (f s) = next_request s
             /\ now (f s) = now s) ->
  keeps_requests limit (call f).
Proof.
  intros Hf s Hs Hnow. destruct (Hf s) as (Hp & Hn & Hc).
  unfold call, requests_wellformed in *. cbn [fst]. rewrite Hp, Hn, Hc.
  split; [exact Hs | lia].
Qed.

Ltac calls_setter :=
  intros; apply keeps_requests_call; intros s; destruct s; repeat split.

Lemma calls_setQuery limit v : keeps_requests limit (call (setQuery v)).
Proof. calls_setter. Qed.
Lemma calls_setDebouncedQuery limit v :
  keeps_requests limit (call (setDebouncedQuery v)).
Proof. calls_setter. Qed.
Lemma calls_setResults limit v : keeps_requests limit (call (setResults v)).
Proof. calls_setter. Qed.
Lemma calls_setLoading limit v : keeps_requests limit (call (setLoading v)).
Proof. calls_setter. Qed.
Lemma calls_setCurrentPage limit v :
  keeps_requests limit (call (setCurrentPage v)).
Proof. calls_setter. Qed.
Lemma calls_setTotalPages limit v :
  keeps_requests limit (call (setTotalPages v)).
Proof. calls_setter. Qed.
Lemma calls_setTotalResults limit v :
  keeps_requests limit (call (setTotalResults v)).
Proof. calls_setter. Qed.
Lemma calls_setError limit v : keeps_requests limit (call (setError v)).
Proof. calls_setter. Qed.
Lemma calls_setSearchTime limit v :
  keeps_requests limit (call (setSearchTime v)).
Proof. calls_setter. Qed.
Lemma calls_setSortBy limit v : keeps_requests limit (call (setSortBy v)).
Proof. calls_setter. Qed.
Lemma calls_setSortOrder limit v :
  keeps_requests limit (call (setSortOrder v)).
Proof. calls_setter. Qed.
Lemma calls_set_debounceRef limit v :
  keeps_requests limit (call (set_debounceRef v)).
Proof. calls_setter. Qed.
Lemma calls_set_timers limit v : keeps_requests limit (call (set_timers v)).
Proof. calls_setter. Qed.
Lemma calls_set_next_handle limit v :
  keeps_requests limit (call (set_next_handle v)).
Proof. calls_setter. Qed.

#[local] Hint Resolve keeps_requests_andThen keeps_requests_skip
  keeps_requests_emit calls_setQuery calls_setDebouncedQuery calls_setResults
  calls_setLoading calls_setCurrentPage calls_setTotalPages
  calls_setTotalResults calls_setError calls_setSearchTime calls_setSortBy
  calls_setSortOrder calls_set_debounceRef calls_set_timers
  calls_set_next_handle : calls.

(** A new request gets the next number and starts now. *)
Lemma calls_searchPublications (limit : Z) (q : jsstring) (pg : Z) :
  keeps_requests limit (searchPublications q pg).
Proof.
  intros s [Hnodup Hall] Hnow. rewrite searchPublications_issue.
  destruct s. cbn in *. split; [|lia]. split; cbn.
  - rewrite map_app. cbn. apply NoDup_app.
    + exact Hnodup.
    + repeat constructor. intros [].
    + intros a Hin [<- | []]. apply in_map_iff in Hin.
      destruct Hin as (p & Hp & Hin).
      rewrite Forall_forall in Hall. destruct (Hall p Hin) as [Hlt _]. lia.
  - apply Forall_app. split.
    + eapply Forall_impl; [|exact Hall]. cbn. intros p [Hlt Hstart].
      split; [lia | exact Hstart].
    + repeat constructor; cbn; lia.
Qed.

Lemma calls_clear_debounce (limit : Z) : keeps_requests limit clear_debounce.
Proof.
  unfold clear_debounce. apply keeps_requests_reading. intros s.
  destruct (debounceRef s); [|auto with calls].
  unfold clearTimeout. apply keeps_requests_reading. intros s'.
  auto with calls.
Qed.

Lemma calls_commit (limit : Z) (before : State) :
  keeps_requests limit (commit before).
Proof.
  unfold commit.
  apply keeps_requests_andThen; apply keeps_requests_reading; intros s.
  - destruct (str_eqb _ _); [auto with calls|].
    unfold debounce_effect, debounce_effect_cleanup, debounce_effect_body.
    apply keeps_requests_andThen; [apply calls_clear_debounce|].
    apply keeps_requests_andThen; [apply calls_clear_debounce|].
    apply keeps_requests_reading. intros s'. unfold setTimeout_debounce.
    apply keeps_requests_reading. intros s''. auto with calls.
  - destruct (str_eqb _ _); [auto with calls|].
    unfold debounced_search_effect.
    apply keeps_requests_andThen; [auto with calls|].
    apply keeps_requests_reading. intros s'. apply calls_searchPublications.
Qed.

Lemma calls_dispatch (limit : Z) (handler : Cmd) :
  keeps_requests limit handler -> keeps_requests limit (dispatch handler).
Proof.
  intros H. unfold dispatch. apply keeps_requests_reading. intros before.
  apply keeps_requests_andThen; [exact H | apply calls_commit].
Qed.

Lemma calls_control (limit : Z) (s : State) (e : Event) (handler : Cmd) :
  control s e = Some handler -> keeps_requests limit handler.
Proof.
  destruct e; cbn [control]; intros H;
    repeat match type of H with
    | (if ?b then _ else _) = Some _ => destruct b
    | match ?x with _ => _ end = Some _ => destruct x
    | None = Some _ => discriminate
    | Some _ = Some _ => injection H as <-
    end;
    unfold handleSearch, handleClearSearch, handleQuickSearch,
      handleSortChange, handlePageChange;
    repeat first
      [ apply calls_searchPublications
      | apply calls_clear_debounce
      | apply keeps_requests_andThen
      | apply keeps_requests_emit
      | match goal with
        | |- keeps_requests _ (reading _) =>
            apply keeps_requests_reading; intros ?
        end
      | solve [auto with calls] ].
Qed.

Lemma calls_fire (limit : Z) (t : Timer) :
  due t <= limit -> keeps_requests limit (fire t).
Proof.
  intros Hdue. unfold fire, clearTimeout.
  apply keeps_requests_andThen;
    [apply keeps_requests_reading; intros ?; auto with calls|].
  apply keeps_requests_andThen.
  - intros s [Hnodup Hall] Hnow. unfold reading, call, requests_wellformed.
    destruct s.
    cbn [fst set_now now pending next_request] in *.
    split; [|lia]. split; [exact Hnodup|].
    eapply Forall_impl; [|exact Hall]. cbv beta. intros p [Hlt Hstart].
    split; [exact Hlt | lia].
  - apply calls_dispatch. auto with calls.
Qed.

Lemma calls_fire_due (limit : Z) (table : list Timer) :
  keeps_requests limit (fire_due limit table).
Proof.
  induction table as [|t table IH]; cbn [fire_due]; [auto with calls|].
  apply keeps_requests_andThen; [|exact IH].
  apply keeps_requests_reading. intros s.
  destruct (Z.leb_spec (due t) limit); cbn [andb]; [|auto with calls].
  destruct (armed (handle t) s); [now apply calls_fire | auto with calls].
Qed.

Lemma filter_keeps_wellformed (id : nat) (s : State) :
  requests_wellformed s ->
  requests_wellformed
    (set_pending (filter (fun p' => negb (Nat.eqb (request p') id))
                         (pending s)) s).
Proof.
  intros [Hnodup Hall]. destruct s. cbn in *. split; cbn.
  - clear Hall. induction pending0 as [|p l IH]; cbn; [constructor|].
    inversion Hnodup as [|? ? Hnotin Hrest]; subst.
    destruct (negb (request p =? id)%nat); cbn; [|auto].
    constructor; [|auto].
    intros Hin. apply Hnotin. apply in_map_iff in Hin.
    destruct Hin as (q & Hq & Hin). apply filter_In in Hin.
    apply in_map_iff. exists q. tauto.
  - apply Forall_forall. intros p Hin. apply filter_In in Hin.
    rewrite Forall_forall in Hall. apply Hall. tauto.
Qed.

Lemma calls_settle (limit : Z) (id : nat) (response : FetchOutcome) :
  keeps_requests limit (settle id response).
Proof.
  intros s Hs Hnow. unfold settle, reading.
  destruct (find_pending id s); [|now apply keeps_requests_skip].
  assert (Hresume : keeps_requests limit
                      (dispatch (searchPublications_resume
                                   p (Api.searchPublications response)))).
  { apply calls_dispatch. unfold searchPublications_resume.
    destruct (Api.searchPublications response);
      [destruct (@onResultsChange env)|];
      repeat first
        [ apply keeps_requests_andThen
        | match goal with
          | |- keeps_requests _ (reading _) =>
              apply keeps_requests_reading; intros ?
          end
        | solve [auto with calls] ]. }
  rewrite andThen_fst. cbn [call fst].
  destruct (Hresume _ (filter_keeps_wellformed id s Hs)) as [Hwf Hclock].
  - destruct s. exact Hnow.
  - split; [exact Hwf|]. destruct s. exact Hclock.
Qed.

(** Every event keeps the bookkeeping in order and never moves the clock
    back. *)
Lemma step_wellformed (e : Event) (s : State) :
  requests_wellformed s ->
  requests_wellformed (fst (step e s)) /\ now s <= now (fst (step e s)).
Proof.
  intros Hs.
  assert (Hcontrol :
            match e with Elapse _ | Settle _ _ => False | _ => True end ->
            requests_wellformed (fst (step e s))
            /\ now s <= now (fst (step e s))).
  { intros He. rewrite (step_control e s He).
    destruct (control s e) as [handler|] eqn:E.
    - destruct (calls_dispatch (now s) handler
                  (calls_control (now s) s e handler E) s Hs (Z.le_refl _))
        as [Hwf Hclock].
      split; [exact Hwf | lia].
    - split; [exact Hs | cbn; lia]. }
  destruct e; try (apply Hcontrol; exact I); cbn [step].
  - unfold elapse, reading. rewrite andThen_fst.
    destruct (calls_fire_due (now s + Z.max 0 ms) (timers s) s Hs
                ltac:(lia)) as [[Hnodup Hall] Hclock].
    unfold call, requests_wellformed.
    destruct (fst (fire_due (now s + Z.max 0 ms) (timers s) s)).
    cbn [fst set_now now pending next_request] in *.
    split; [|lia]. split; [exact Hnodup|].
    eapply Forall_impl; [|exact Hall]. cbv beta. intros p [Hlt Hstart].
    split; [exact Hlt | lia].
  - destruct (calls_settle (now s) id response s Hs (Z.le_refl _))
      as [Hwf Hclock].
    split; [exact Hwf | lia].
Qed.

Lemma run_wellformed (events : list Event) (s : State) :
  requests_wellformed s -> requests_wellformed (fst (run events s)).
Proof.
  revert s. induction events as [|e events IH]; intros s Hs; cbn [run].
  - exact Hs.
  - rewrite andThen_fst. apply IH. now apply step_wellformed.
Qed.

Lemma mount_wellformed : requests_wellformed (fst (mount initial)).
Proof.
  split; cbn.
  - repeat constructor; cbn; intuition discriminate.
  - repeat constructor; cbn; lia.
Qed.

(** X14. In every state the mounted component can reach, the search time
    recorded by a fulfilled response is the clock time that passed
    between issuing the request and its response, divided by 1000, and
    is never negative. *)
Theorem search_time_is_elapsed (history : list Event) (id : nat)
  (p : Pending) (status : Z) (data : SearchResponse) :
  let s := fst (run history (fst (mount initial))) in
  find_pending id s = Some p ->
  ok status = true ->
  let s' := fst (step (Settle id (Response status (Json data))) s) in
  searchTime s' = Qmake (now s - startTime p) 1000
  /\ 0 <= now s - startTime p
  /\ (0 <= searchTime s')%Q.
Proof.
  intros s Hp Hok s'.
  assert (Hs : requests_wellformed s)
    by (apply run_wellformed, mount_wellformed).
  assert (Hstart : startTime p <= now s).
  { destruct Hs as [_ Hall]. rewrite Forall_forall in Hall.
    apply Hall. unfold find_pending in Hp. apply find_some in Hp. tauto. }
  assert (Htime : searchTime s' = Qmake (now s - startTime p) 1000).
  { subst s'. cbn [step]. rewrite (settle_resume _ _ _ _ Hp).
    unfold Api.searchPublications. rewrite Hok. cbn [negb].
    destruct s. exec. destruct (@onResultsChange env); reflexivity. }
  split; [exact Htime|]. split; [lia|].
  rewrite Htime. unfold Qle. cbn. lia.
Qed.

End Controller.

(** *** On the sample runs *)

Import Samples.

Lemma pagination_stays_in_range_witness :
  (pagination_control ClickNext = true
   /\ 1 <= currentPage ready <= totalPages ready)
  /\ exists page,
       1 <= page <= 3
       /\ snd (@step chrome ClickNext ready)
          = [Fetch [] page pageSize; ScrollToTop].
Proof.
  assert (Hrange : 1 <= currentPage ready <= totalPages ready)
    by (split; discriminate).
  split; [split; [reflexivity | exact Hrange]|].
  destruct (@pagination_stays_in_range chrome ClickNext ready eq_refl Hrange)
    as [Hnone | (page & Hpage & Hout & _)].
  - apply (f_equal snd) in Hnone. discriminate Hnone.
  - exists page. split; [exact Hpage | exact Hout].
Defined.

Lemma debounce_fire_witness :
  let s := fst (@run chrome [Change (lit "ml")] ready) in
  timers s = [{| handle := 2; due := 4000; closure_query := lit "ml" |}]
  /\ snd (@step chrome (Elapse 4000) s)
     = [DebounceEmit (lit "ml"); Fetch (lit "ml") 1 pageSize]
  /\ currentPage (fst (@step chrome (Elapse 4000) s)) = 1.
Proof.
  intros s. split; [reflexivity|].
  assert (Hdue : 4000 <= now s + Z.max 0 4000) by discriminate.
  destruct (@debounce_fire chrome 4000
              {| handle := 2; due := 4000; closure_query := lit "ml" |}
              s eq_refl Hdue)
    as (_ & _ & _ & _ & Hdiffers).
  destruct Hdiffers as (Hout & Hpage & _); [discriminate|].
  split; [exact Hout | exact Hpage].
Defined.

Lemma clear_search_witness :
  let s := fst (@run chrome [Change (lit "ml"); Elapse 4000] ready) in
  (truthy (query s) = true /\ debouncedQuery s = lit "ml")
  /\ snd (@step chrome ClickClear s)
     = [Fetch [] 1 pageSize; Fetch [] 1 pageSize]
  /\ snd (@step chrome (Elapse debounce_delay)
                 (fst (@step chrome ClickClear s)))
     = [DebounceEmit []].
Proof.
  intros s. split; [split; reflexivity|].
  assert (Hs : debounce_invariant s) by (left; reflexivity).
  destruct (@clear_search chrome s Hs eq_refl)
    as (_ & _ & _ & _ & _ & _ & Hout & Hlater).
  split; [exact Hout | exact Hlater].
Defined.

Lemma quick_search_searches_twice_witness :
  let suggestion := lit "blockchain" in
  (@control chrome ready (ClickSuggestion suggestion)
   = Some (handleQuickSearch suggestion)
   /\ suggestion <> query ready)
  /\ snd (@step chrome (ClickSuggestion suggestion) ready)
     = [Fetch suggestion 1 pageSize]
  /\ snd (@step chrome (Elapse debounce_delay)
                 (fst (@step chrome (ClickSuggestion suggestion) ready)))
     = [DebounceEmit suggestion; Fetch suggestion 1 pageSize].
Proof.
  intros suggestion.
  assert (Hne : suggestion <> query ready) by discriminate.
  split; [split; [reflexivity | exact Hne]|].
  assert (Hs : debounce_invariant ready).
  { right. exists {| handle := 1; due := 4000; closure_query := [] |}.
    split; reflexivity. }
  destruct (@quick_search_searches_twice chrome suggestion ready Hs eq_refl
              Hne)
    as (Hout & _ & _ & _ & _ & Hlater).
  split; [exact Hout | apply Hlater; discriminate].
Defined.

Lemma sort_controls_are_local_witness :
  snd (@step chrome ToggleSortOrder ready) = []
  /\ currentPage (fst (@step chrome ToggleSortOrder ready)) = 1
  /\ sortOrder (fst (@step chrome ToggleSortOrder ready)) = asc.
Proof.
  destruct (@sort_controls_are_local chrome ToggleSortOrder ready
              (or_intror eq_refl))
    as (Hout & _ & _ & _ & Hpage & _).
  split; [exact Hout|]. split; [exact Hpage | reflexivity].
Defined.


Lemma spinner_stops_early_witness :
  let s := fst (@run chrome overlapping ready) in
  let s' := fst (@step chrome (Settle 4 new_page) s) in
  map request (pending s) = [3%nat; 4%nat]
  /\ loading s' = false
  /\ map request (pending s') = [3%nat].
Proof.
  intros s s'. split; [reflexivity|].
  destruct (@spinner_stops_early chrome 4%nat 3%nat
              {| request := 4; searchQuery := lit "new";
                 requested_page := 1; startTime := 5000 |}
              {| request := 3; searchQuery := lit "old";
                 requested_page := 1; startTime := 0 |}
              new_page s eq_refl eq_refl ltac:(discriminate))
    as [Hloading _].
  split; [exact Hloading | reflexivity].
Defined.

Lemma search_time_is_elapsed_witness :
  let history :=
    [Settle 1 first_page; Settle 2 first_page] ++ overlapping
      ++ [Elapse 250] in
  let s := fst (@run chrome history (fst (mount initial))) in
  let s' := fst (@step chrome (Settle 4 new_page) s) in
  now s = 5250 /\ searchTime s' = (250 # 1000)%Q.
Proof.
  intros history s s'. split; [reflexivity|].
  destruct (@search_time_is_elapsed chrome history 4%nat
              {| request := 4; searchQuery := lit "new";
                 requested_page := 1; startTime := 5000 |}
              200
              {| Api.results := [new_paper]; total := 1; page := 1;
                 size := 10; total_pages := 1 |}
              eq_refl eq_refl)
    as (Htime & _).
  exact Htime.
Defined.

End ControllerMore.

(** ** The views *)

Module ViewProps.

Import Stats Card StringProps.

(** X15. The range shown by [SearchStats] for a page size above 0 and a
    page from 1 on: it starts at 1 or later, ends at the total at most
    and covers at most [pageSize] results; it is not empty when results
    remain for the page; a full page ends exactly one before the next
    page starts; the last page ends at the total. *)
Theorem stats_range (currentPage pageSize totalResults : Z) :
  0 < pageSize ->
  1 <= currentPage ->
  let first := startResult currentPage pageSize in
  let last := endResult currentPage pageSize totalResults in
  1 <= first
  /\ last <= totalResults
  /\ last - first + 1 <= pageSize
  /\ ((currentPage - 1) * pageSize < totalResults -> first <= last)
  /\ (currentPage * pageSize <= totalResults ->
      last - first + 1 = pageSize
      /\ startResult (currentPage + 1) pageSize = last + 1)
  /\ (totalResults <= currentPage * pageSize -> last = totalResults).
Proof.
  intros Hsize Hpage first last. subst first last.
  unfold startResult, endResult. nia.
Qed.

Lemma length_lit_dots : length (lit "...") = 3%nat.
Proof. reflexivity. Qed.

(** X16. [truncateText] with a limit of 0 or more returns the text
    unchanged when it fits, and otherwise the first [maxLength] units
    followed by three dots: the result is never longer than the limit
    plus 3 and agrees with the text on its first [maxLength] units. *)
Theorem truncateText_bounds (text : jsstring) (maxLength : Z) :
  0 <= maxLength ->
  let shown := truncateText text maxLength in
  (Z.of_nat (length text) <= maxLength -> shown = text)
  /\ (maxLength < Z.of_nat (length text) ->
      shown = firstn (Z.to_nat maxLength) text ++ lit "..."
      /\ Z.of_nat (length shown) = maxLength + 3)
  /\ Z.of_nat (length shown) <= maxLength + 3
  /\ firstn (Z.to_nat maxLength) shown = firstn (Z.to_nat maxLength) text.
Proof.
  intros Hmax shown. subst shown. unfold truncateText.
  destruct (Z.leb_spec (Z.of_nat (length text)) maxLength) as [Hshort|Hlong].
  - rewrite orb_true_r.
    split; [reflexivity|]. split; [lia|]. split; [lia | reflexivity].
  - destruct text as [|c text]; [cbn in Hlong; lia|].
    cbn [truthy negb orb].
    assert (Hlen : length (firstn (Z.to_nat maxLength) (c :: text))
                   = Z.to_nat maxLength)
      by (apply firstn_length_le; lia).
    assert (Hshown :
              Z.of_nat (length (firstn (Z.to_nat maxLength) (c :: text)
                                  ++ lit "...")) = maxLength + 3)
      by (rewrite length_app, Hlen, length_lit_dots; lia).
    split; [lia|]. split; [intros _; split; [reflexivity | exact Hshown]|].
    split; [lia|].
    rewrite firstn_app, Hlen, Nat.sub_diag, firstn_O, app_nil_r.
    rewrite firstn_firstn. f_equal. lia.
Qed.

(** X17. The authors line of a card shows "Authors not available" for
    an empty list and otherwise the names of the first three authors
    separated by ", " with no separator at the end, followed by
    " and others" exactly when there are more than three authors. *)
Theorem authors_line_spec (authors : list Author) :
  authors_line authors =
  match authors with
  | [] => lit "Authors not available"
  | _ :: _ =>
      joined (map name (firstn 3 authors))
        ++ (if (3 <? length authors)%nat then lit " and others" else [])
  end.
Proof.
  unfold authors_line.
  destruct authors as [|a [|b [|c [|d rest]]]].
  - reflexivity.
  - cbn. unfold author_span. cbn. now rewrite ?app_nil_r.
  - cbn. unfold author_span. cbn. now rewrite ?app_nil_r, <- ?app_assoc.
  - cbn. unfold author_span. cbn. now rewrite ?app_nil_r, <- ?app_assoc.
  - set (len := Z.of_nat (length (a :: b :: c :: d :: rest))).
    assert (Hlen : 4 <= len) by (subst len; cbn [length]; lia).
    replace (len >? 0) with true by (symmetry; apply Z.gtb_lt; lia).
    cbn [firstn author_spans concat map joined].
    unfold author_span.
    replace (Z.min (len - 1) 2) with 2 by lia.
    replace (len >? 3) with true by (symmetry; apply Z.gtb_lt; lia).
    cbn [Z.add Z.ltb Z.eqb Z.compare Pos.compare Pos.compare_cont Pos.add
         Pos.eqb andb length Nat.ltb Nat.leb].
    rewrite !app_nil_r, <- !app_assoc. reflexivity.
Qed.


Lemma stats_range_witness :
  (0 < 10 /\ 1 <= 2)
  /\ startResult 2 10 = 11
  /\ endResult 2 10 23 = 20
  /\ startResult 3 10 = endResult 2 10 23 + 1.
Proof.
  split; [lia|].
  destruct (stats_range 2 10 23 ltac:(lia) ltac:(lia))
    as (_ & _ & _ & _ & Hfull & _).
  destruct Hfull as [_ Hnext]; [lia|].
  split; [reflexivity|]. split; [reflexivity | exact Hnext].
Defined.

Lemma truncateText_bounds_witness :
  0 <= 3 /\ truncateText (lit "abcdef") 3 = lit "abc...".
Proof.
  split; [lia|].
  destruct (truncateText_bounds (lit "abcdef") 3 ltac:(lia))
    as (_ & Hlong & _).
  destruct Hlong as [Hshown _]; [cbn; lia|]. exact Hshown.
Defined.

End ViewProps.

(** ** More on the classification flow *)

Module ClassificationMore.

Import Classification ClassificationView StringProps.

(** The pieces of a split that count as words, with the piece being read
    taken into account. *)
Lemma split_whitespace_words (s : jsstring) :
  forall (in_gap : bool) (word : jsstring),
    (in_gap = true -> word = []) ->
    (length (filter truthy (split_whitespace in_gap word s)) = 0%nat
     <-> word = [] /\ forallb is_whitespace s = true).
Proof.
  induction s as [|c s IH]; intros in_gap word Hgap; cbn [split_whitespace].
  - cbn. destruct word; cbn; split; try tauto; try discriminate.
    intros [H _]. discriminate.
  - cbn [forallb]. destruct (is_whitespace c) eqn:Hc; cbn [andb].
    + destruct in_gap.
      * rewrite (Hgap eq_refl). rewrite IH by reflexivity. tauto.
      * cbn [filter]. destruct word as [|w word]; cbn [truthy].
        -- rewrite IH by reflexivity. tauto.
        -- cbn [length]. split; [discriminate|]. intros [H _]. discriminate.
    + rewrite IH by discriminate. split.
      * intros [H _]. destruct word; discriminate.
      * intros [_ H]. discriminate.
Qed.

(** No word is counted exactly when every unit is white space. *)
Lemma word_count_whitespace (text : jsstring) :
  word_count text = 0%nat <-> forallb is_whitespace text = true.
Proof.
  unfold word_count. rewrite split_whitespace_words by discriminate. tauto.
Qed.

(** X18. The word counter of the classification form shows 0 exactly
    when nothing is left of the text after trimming. *)
Theorem word_count_zero (text : jsstring) :
  word_count text = 0%nat <-> trim text = [].
Proof. rewrite word_count_whitespace, trim_nil. tauto. Qed.

(** X19. The classify button: disabled it changes nothing; enabled it
    raises the loading flag, clears the error and sends the request
    with the untrimmed text and the chosen model. While nothing is
    loading it is disabled exactly when the word counter shows 0. A
    click never produces the validation message of [handleClassify]:
    the error is left as it was or cleared. *)
Theorem classify_button (s : State) :
  (classify_disabled s = true -> click_classify s = (s, []))
  /\ (classify_disabled s = false ->
      click_classify s =
      (setError None (setLoading true s),
       [ClassifyText (text s) (modelType s)]))
  /\ (loading s = false ->
      (classify_disabled s = true <-> word_count (text s) = 0%nat))
  /\ (error (fst (click_classify s)) = error s
      \/ error (fst (click_classify s)) = None).
Proof.
  unfold click_classify, classify_disabled.
  split; [intros ->; reflexivity|].
  split.
  - intros H. rewrite H. apply orb_false_iff in H. destruct H as [_ H].
    unfold handleClassify. now rewrite H.
  - split.
    + intros ->. cbn [orb]. rewrite word_count_whitespace, <- trim_nil.
      destruct (trim (text s)); cbn; split; congruence.
    + destruct (loading s || negb (truthy (trim (text s)))) eqn:E;
        [left; reflexivity|].
      apply orb_false_iff in E. destruct E as [_ E].
      unfold handleClassify. rewrite E. right. reflexivity.
Qed.

(** X20. [handleClear] empties the text, the result and the error,
    which disables the classify button, but it keeps the loading flag
    and does not cancel a classification in flight: the response that
    arrives afterwards still fills in its result, or its error. *)
Theorem clear_does_not_cancel (s : State)
  (outcome : ClassificationResult + thrown) :
  let cleared := handleClear s in
  text cleared = [] /\ result cleared = None /\ error cleared = None
  /\ loading cleared = loading s
  /\ classify_disabled cleared = true
  /\ match outcome with
     | inl r => result (fst (handleClassify_resume outcome cleared)) = Some r
     | inr _ =>
         error (fst (handleClassify_resume outcome cleared))
         = Some (lit "Failed to classify text. Please try again.")
     end.
Proof.
  cbv zeta. unfold classify_disabled, handleClear.
  destruct outcome; cbn; rewrite ?orb_true_r; repeat split.
Qed.

(** X21. A classification started from the enabled button and then
    rejected leaves the result of the previous classification on
    display next to the error message, keeps the text, lowers the
    loading flag and leaves the button enabled for another try. *)
Theorem classify_failure_keeps_result (s : State) (err : thrown) :
  classify_disabled s = false ->
  let started := fst (handleClassify s) in
  let failed := fst (handleClassify_resume (inr err) started) in
  loading started = true
  /\ error started = None
  /\ result failed = result s
  /\ text failed = text s
  /\ loading failed = false
  /\ error failed = Some (lit "Failed to classify text. Please try again.")
  /\ classify_disabled failed = false.
Proof.
  intros Henabled started failed. subst started failed.
  unfold classify_disabled in *.
  apply orb_false_iff in Henabled. destruct Henabled as [Hloading Htext].
  unfold handleClassify. rewrite Htext.
  cbn [fst handleClassify_resume setLoading setError setResult text result
       loading error modelType modelInfo orb].
  rewrite Htext. repeat split.
Qed.


Lemma classify_failure_keeps_result_witness :
  let previous :=
    {| predicted_category := lit "politics"; confidence := Num (9 # 10);
       probabilities := []; model_used := lit "naive_bayes";
       text_length := 11; processed_text_length := 11 |} in
  let s := {| text := lit "budget vote"; result := Some previous;
              loading := false; error := None; modelType := naive_bayes;
              modelInfo := None |} in
  let failed :=
    fst (handleClassify_resume (inr OtherValue) (fst (handleClassify s))) in
  classify_disabled s = false
  /\ result failed = Some previous
  /\ error failed = Some (lit "Failed to classify text. Please try again.").
Proof.
  intros previous s failed. split; [reflexivity|].
  destruct (classify_failure_keeps_result s OtherValue eq_refl)
    as (_ & _ & Hresult & _ & _ & Herror & _).
  split; [exact Hresult | exact Herror].
Defined.

End ClassificationMore.

(** ** The sort of V8 *)

Module V8Props.

Import Runtime.

Section AnyComparator.
Context {A : Type} (comparefn : A -> A -> Z).

Lemma run_tail_bound (isDescending : bool) (rest : list A) :
  forall previousElement,
    (V8.run_tail comparefn isDescending previousElement rest
     <= length rest)%nat.
Proof.
  induction rest as [|x rest IH]; intros previousElement;
    cbn [V8.run_tail length]; [lia|].
  destruct (if isDescending then _ else _); [lia|].
  specialize (IH x). lia.
Qed.

Lemma CountAndMakeRun_permutation (array : list A) :
  Permutation (snd (V8.CountAndMakeRun comparefn array)) array.
Proof.
  unfold V8.CountAndMakeRun.
  destruct array as [|a [|b rest]]; cbn [snd]; try reflexivity.
  destruct (comparefn b a <? 0); [|reflexivity].
  rewrite <- (firstn_skipn
                (2 + V8.run_tail comparefn true b rest) (a :: b :: rest))
    at 3.
  apply Permutation_app_tail. symmetry. apply Permutation_rev.
Qed.

Lemma BinaryInsertionSort_permutation (rest : list A) :
  forall sorted,
    Permutation (V8.BinaryInsertionSort comparefn sorted rest)
                (sorted ++ rest).
Proof.
  induction rest as [|pivot rest IH]; intros sorted;
    cbn [V8.BinaryInsertionSort].
  - now rewrite app_nil_r.
  - rewrite IH. rewrite <- app_assoc. cbn [app].
    set (k := V8.insertion_point comparefn _ pivot sorted 0 _).
    rewrite <- (firstn_skipn k sorted) at 3.
    rewrite <- !app_assoc. apply Permutation_app_head.
    cbn [app]. apply Permutation_middle.
Qed.

Lemma ArrayTimSort_permutation (array : list A) :
  Permutation (V8.ArrayTimSort comparefn array) array.
Proof.
  unfold V8.ArrayTimSort.
  destruct (length array <? 2)%nat; [reflexivity|].
  pose proof (CountAndMakeRun_permutation array) as Hrun.
  destruct (V8.CountAndMakeRun comparefn array) as [runLength workArray].
  cbn [snd] in Hrun.
  rewrite BinaryInsertionSort_permutation, firstn_skipn. exact Hrun.
Qed.

End AnyComparator.


(** *** Sorting relations *)

Lemma StronglySorted_insert {A : Type} (R : A -> A -> Prop) (x : A)
  (l1 l2 : list A) :
  StronglySorted R (l1 ++ l2) ->
  (forall a, In a l1 -> R a x) ->
  (forall b, In b l2 -> R x b) ->
  StronglySorted R (l1 ++ x :: l2).
Proof.
  induction l1 as [|a l1 IH]; cbn [app]; intros Hsorted Hleft Hright.
  - constructor; [exact Hsorted|]. apply Forall_forall. exact Hright.
  - inversion Hsorted as [|? ? Htail Hhead]; subst.
    constructor.
    + apply IH; [exact Htail | intros; apply Hleft; now right | exact Hright].
    + rewrite Forall_app in *. destruct Hhead as [H1 H2].
      split; [exact H1|]. constructor; [apply Hleft; now left | exact H2].
Qed.

Lemma StronglySorted_app {A : Type} (R : A -> A -> Prop) (l1 l2 : list A) :
  StronglySorted R l1 ->
  StronglySorted R l2 ->
  (forall a b, In a l1 -> In b l2 -> R a b) ->
  StronglySorted R (l1 ++ l2).
Proof.
  induction l1 as [|a l1 IH]; cbn [app]; intros H1 H2 Hcross; [exact H2|].
  inversion H1 as [|? ? Htail Hhead]; subst.
  constructor.
  - apply IH; [exact Htail | exact H2 |].
    intros x y Hx Hy. apply Hcross; [now right | exact Hy].
  - rewrite Forall_app. split; [exact Hhead|].
    apply Forall_forall. intros y Hy. apply Hcross; [now left | exact Hy].
Qed.

Lemma StronglySorted_rev {A : Type} (R : A -> A -> Prop) (l : list A) :
  StronglySorted (fun x y => R y x) l -> StronglySorted R (rev l).
Proof.
  induction 1 as [|a l Hsorted IH Hhead]; cbn [rev]; [constructor|].
  apply StronglySorted_app; [exact IH | repeat constructor |].
  intros x y Hx [<- | []]. rewrite Forall_forall in Hhead.
  apply Hhead. now apply in_rev.
Qed.

Lemma StronglySorted_nth {A : Type} (R : A -> A -> Prop) (d : A)
  (l : list A) :
  StronglySorted R l ->
  forall i j, (i < j < length l)%nat -> R (nth i l d) (nth j l d).
Proof.
  induction 1 as [|a l Hsorted IH Hhead]; intros i j Hij;
    [cbn in Hij; lia|].
  destruct j as [|j]; [lia|]. cbn [length] in Hij.
  destruct i as [|i]; cbn [nth].
  - rewrite Forall_forall in Hhead. apply Hhead, nth_In. lia.
  - apply IH. lia.
Qed.

Lemma Sorted_StronglySorted_trans {A : Type} (R : A -> A -> Prop)
  (l : list A) :
  (forall x y z, R x y -> R y z -> R x z) ->
  Sorted R l -> StronglySorted R l.
Proof. intros Htrans. apply Sorted_StronglySorted. exact Htrans. Qed.

Section Ordered.
Context {A : Type} (comparefn : A -> A -> Z) (lt : A -> A -> Prop)
  (array : list A).
Hypothesis array_NoDup : NoDup array.
Hypothesis comparefn_lt :
  forall x y, In x array -> In y array -> x <> y ->
              (comparefn x y < 0 <-> lt x y).
Hypothesis lt_total :
  forall x y, In x array -> In y array -> x <> y -> lt x y \/ lt y x.
Hypothesis lt_trans :
  forall x y z, In x array -> In y array -> In z array ->
                lt x y -> lt y z -> lt x z.
Hypothesis lt_asym :
  forall x y, In x array -> In y array -> lt x y -> ~ lt y x.

Local Abbreviation R := (within array lt).

Lemma within_trans (x y z : A) : R x y -> R y z -> R x z.
Proof.
  intros (Hx & Hy & Hxy) (_ & Hz & Hyz).
  repeat split; try assumption. now apply (lt_trans x y z).
Qed.

Lemma within_flip_trans (x y z : A) : R y x -> R z y -> R z x.
Proof. intros H1 H2. exact (within_trans z y x H2 H1). Qed.

(** An answer that is not negative means the opposite order. *)
Lemma not_negative (x y : A) :
  In x array -> In y array -> x <> y ->
  ~ comparefn x y < 0 -> lt y x.
Proof.
  intros Hx Hy Hne Hge.
  destruct (lt_total x y Hx Hy Hne) as [Hlt | Hlt]; [|exact Hlt].
  apply comparefn_lt in Hlt; try assumption. contradiction.
Qed.

(** The run found by [CountAndMakeRun] is ascending, or descending. *)
Lemma run_tail_ascending (rest : list A) :
  forall previousElement,
    NoDup (previousElement :: rest) ->
    incl (previousElement :: rest) array ->
    Sorted R
      (previousElement
         :: firstn (V8.run_tail comparefn false previousElement rest) rest).
Proof.
  induction rest as [|x rest IH]; intros previousElement Hnodup Hincl;
    cbn [V8.run_tail]; [repeat constructor|].
  destruct (Z.ltb_spec (comparefn x previousElement) 0) as [Hneg|Hpos];
    cbn [firstn]; [repeat constructor|].
  inversion Hnodup as [|? ? Hnotin Hrest]; subst.
  assert (Hprev : In previousElement array) by (apply Hincl; now left).
  assert (Hx : In x array) by (apply Hincl; right; now left).
  constructor.
  - apply IH; [exact Hrest|]. intros y Hy. apply Hincl. now right.
  - constructor. repeat split; try assumption.
    apply (not_negative x previousElement); try assumption; [|lia].
    intros ->. apply Hnotin. now left.
Qed.

Lemma run_tail_descending (rest : list A) :
  forall previousElement,
    NoDup (previousElement :: rest) ->
    incl (previousElement :: rest) array ->
    Sorted (fun x y => R y x)
      (previousElement
         :: firstn (V8.run_tail comparefn true previousElement rest) rest).
Proof.
  induction rest as [|x rest IH]; intros previousElement Hnodup Hincl;
    cbn [V8.run_tail]; [repeat constructor|].
  rewrite Z.geb_leb.
  destruct (Z.leb_spec 0 (comparefn x previousElement)) as [Hpos|Hneg];
    cbn [firstn]; [repeat constructor|].
  inversion Hnodup as [|? ? Hnotin Hrest]; subst.
  assert (Hprev : In previousElement array) by (apply Hincl; now left).
  assert (Hx : In x array) by (apply Hincl; right; now left).
  constructor.
  - apply IH; [exact Hrest|]. intros y Hy. apply Hincl. now right.
  - constructor. repeat split; try assumption.
    apply comparefn_lt; try assumption.
    intros ->. apply Hnotin. now left.
Qed.

(** The prefix that [CountAndMakeRun] returns as the run is sorted. *)
Lemma CountAndMakeRun_sorted (work : list A) :
  NoDup work ->
  incl work array ->
  StronglySorted R
    (firstn (fst (V8.CountAndMakeRun comparefn work))
            (snd (V8.CountAndMakeRun comparefn work))).
Proof.
  intros Hnodup Hincl. unfold V8.CountAndMakeRun.
  destruct work as [|a [|b rest]]; cbn [fst snd length firstn].
  - constructor.
  - repeat constructor.
  - change (2 + ?n)%nat with (S (S n)).
    destruct (Z.ltb_spec (comparefn b a) 0) as [Hneg|Hpos].
    + assert (Hrun := run_tail_descending (b :: rest) a Hnodup Hincl).
      cbn [V8.run_tail] in Hrun. rewrite Z.geb_leb in Hrun.
      replace (0 <=? comparefn b a) with false in Hrun
        by (symmetry; apply Z.leb_gt; exact Hneg).
      cbn [firstn] in Hrun.
      set (run := S (S (V8.run_tail comparefn true b rest))).
      assert (Hlen : length (firstn run (a :: b :: rest)) = run).
      { apply firstn_length_le. subst run. cbn [length].
        pose proof (run_tail_bound comparefn true rest b). lia. }
      rewrite firstn_app, length_rev, Hlen, Nat.sub_diag, firstn_O,
        app_nil_r.
      rewrite <- Hlen at 1. rewrite <- length_rev, firstn_all.
      apply StronglySorted_rev. subst run. cbn [firstn].
      apply Sorted_StronglySorted_trans; [|exact Hrun].
      intros x y z. apply within_flip_trans.
    + assert (Hrun := run_tail_ascending (b :: rest) a Hnodup Hincl).
      cbn [V8.run_tail] in Hrun.
      replace (comparefn b a <? 0) with false in Hrun
        by (symmetry; apply Z.ltb_ge; exact Hpos).
      cbn [firstn] in *.
      apply Sorted_StronglySorted_trans; [|exact Hrun].
      intros x y z. apply within_trans.
Qed.

(** The binary search returns a place that splits the sorted prefix
    into the elements before the pivot and the elements after it. *)
Lemma insertion_point_spec (pivot : A) (sorted : list A) :
  StronglySorted R sorted ->
  incl sorted array ->
  In pivot array ->
  ~ In pivot sorted ->
  forall (fuel left right : nat),
    (left <= right <= length sorted)%nat ->
    (right - left <= fuel)%nat ->
    (forall i, (i < left)%nat -> R (nth i sorted pivot) pivot) ->
    (forall i, (right <= i < length sorted)%nat ->
               R pivot (nth i sorted pivot)) ->
    let k := V8.insertion_point comparefn fuel pivot sorted left right in
    (forall i, (i < k)%nat -> R (nth i sorted pivot) pivot)
    /\ (forall i, (k <= i < length sorted)%nat ->
                  R pivot (nth i sorted pivot))
    /\ (k <= length sorted)%nat.
Proof.
  intros Hsorted Hincl Hpivot Hfresh.
  induction fuel as [|fuel IH]; intros left right Hbounds Hfuel Hleft Hright;
    cbn [V8.insertion_point].
  - assert (left = right) by lia. subst. cbv zeta.
    split; [exact Hleft | split; [exact Hright | lia]].
  - destruct (Nat.ltb_spec left right) as [Hlt|Hge].
    + assert (Hhalf : (Nat.div2 (right - left) < right - left)%nat)
        by (apply Nat.lt_div2; lia).
      set (half := Nat.div2 (right - left)) in *. clearbody half.
      set (mid := (left + half)%nat).
      assert (Hmid : (left <= mid < right)%nat) by (subst mid; lia).
      assert (Hin : In (nth mid sorted pivot) sorted)
        by (apply nth_In; lia).
      assert (Hne : pivot <> nth mid sorted pivot)
        by (intros Heq; apply Hfresh; rewrite Heq; exact Hin).
      destruct (Z.ltb_spec (comparefn pivot (nth mid sorted pivot)) 0)
        as [Hneg|Hpos].
      * apply IH; [lia | lia | exact Hleft |].
        intros i Hi.
        assert (Hhere : R pivot (nth mid sorted pivot)).
        { repeat split; [exact Hpivot | apply Hincl, Hin |].
          apply comparefn_lt; auto. }
        destruct (Nat.eq_dec i mid) as [-> | Hother]; [exact Hhere|].
        apply (within_trans _ (nth mid sorted pivot)); [exact Hhere|].
        apply StronglySorted_nth; [exact Hsorted | lia].
      * apply IH; [lia | lia | | exact Hright].
        intros i Hi.
        assert (Hhere : R (nth mid sorted pivot) pivot).
        { repeat split; [apply Hincl, Hin | exact Hpivot |].
          apply (not_negative pivot); auto. lia. }
        destruct (Nat.eq_dec i mid) as [-> | Hother]; [exact Hhere|].
        apply (within_trans _ (nth mid sorted pivot)); [|exact Hhere].
        apply StronglySorted_nth; [exact Hsorted | lia].
    + assert (left = right) by lia. subst. cbv zeta.
      split; [exact Hleft | split; [exact Hright | lia]].
Qed.

Lemma insert_sorted (pivot : A) (sorted : list A) :
  StronglySorted R sorted ->
  incl sorted array ->
  In pivot array ->
  ~ In pivot sorted ->
  let left := V8.insertion_point comparefn (length sorted) pivot sorted 0
                                 (length sorted) in
  StronglySorted R (firstn left sorted ++ pivot :: skipn left sorted).
Proof.
  intros Hsorted Hincl Hpivot Hfresh left.
  destruct (insertion_point_spec pivot sorted Hsorted Hincl Hpivot Hfresh
              (length sorted) 0 (length sorted))
    as (Hbefore & Hafter & Hk); try lia.
  fold left in Hbefore, Hafter, Hk.
  apply StronglySorted_insert.
  - now rewrite firstn_skipn.
  - intros a Ha. destruct (In_nth _ _ pivot Ha) as (i & Hi & <-).
    rewrite length_firstn in Hi. rewrite nth_firstn.
    destruct (Nat.ltb_spec i left); [|lia]. apply Hbefore. lia.
  - intros b Hb. destruct (In_nth _ _ pivot Hb) as (i & Hi & <-).
    rewrite length_skipn in Hi. rewrite nth_skipn. apply Hafter. lia.
Qed.

Lemma BinaryInsertionSort_sorted (rest : list A) :
  forall sorted,
    StronglySorted R sorted ->
    NoDup (sorted ++ rest) ->
    incl (sorted ++ rest) array ->
    StronglySorted R (V8.BinaryInsertionSort comparefn sorted rest).
Proof.
  induction rest as [|pivot rest IH]; intros sorted Hsorted Hnodup Hincl;
    cbn [V8.BinaryInsertionSort]; [exact Hsorted|].
  set (left := V8.insertion_point comparefn _ pivot sorted 0 _).
  assert (Hperm : Permutation
                    ((firstn left sorted ++ pivot :: skipn left sorted)
                       ++ rest)
                    (sorted ++ pivot :: rest)).
  { rewrite <- (firstn_skipn left sorted) at 3.
    rewrite <- !app_assoc. apply Permutation_app_head.
    cbn [app]. apply Permutation_middle. }
  apply IH.
  - apply insert_sorted; [exact Hsorted | | |].
    + intros x Hx. apply Hincl, in_or_app. now left.
    + apply Hincl, in_or_app. right. now left.
    + intros Hin. apply NoDup_remove_2 in Hnodup. apply Hnodup.
      apply in_or_app. now left.
  - apply (Permutation_NoDup (Permutation_sym Hperm)). exact Hnodup.
  - intros x Hx. apply Hincl. apply (Permutation_in _ Hperm). exact Hx.
Qed.

(** On an array of distinct elements that the comparator orders like a
    strict total order, V8 returns the array in that order. *)
Lemma ArrayTimSort_sorted :
  StronglySorted lt (V8.ArrayTimSort comparefn array).
Proof.
  assert (Hsorted : StronglySorted R (V8.ArrayTimSort comparefn array)).
  { unfold V8.ArrayTimSort.
    destruct (Nat.ltb_spec (length array) 2) as [Hshort|Hlong].
    - clear -Hshort. destruct array as [|a [|b rest]];
        [constructor | repeat constructor | cbn in Hshort; lia].
    - pose proof (CountAndMakeRun_sorted array array_NoDup (incl_refl _))
        as Hrun.
      pose proof (CountAndMakeRun_permutation comparefn array) as Hperm.
      destruct (V8.CountAndMakeRun comparefn array)
        as [runLength workArray].
      cbn [fst snd] in Hrun, Hperm.
      apply BinaryInsertionSort_sorted; [exact Hrun | |];
        rewrite firstn_skipn.
      + apply (Permutation_NoDup (Permutation_sym Hperm)), array_NoDup.
      + intros x Hx. apply (Permutation_in _ Hperm). exact Hx. }
  clear -Hsorted.
  induction Hsorted as [|a l Hs IH Hhead]; constructor; [exact IH|].
  eapply Forall_impl; [|exact Hhead]. intros b (_ & _ & Hlt). exact Hlt.
Qed.

(** An array that is already in order is one ascending run: V8 returns
    it as it is. *)
Lemma run_tail_whole (rest : list A) :
  forall previousElement,
    incl (previousElement :: rest) array ->
    StronglySorted lt (previousElement :: rest) ->
    V8.run_tail comparefn false previousElement rest = length rest.
Proof.
  induction rest as [|x rest IH]; intros previousElement Hincl Hsorted;
    cbn [V8.run_tail length]; [reflexivity|].
  inversion Hsorted as [|? ? Htail Hhead]; subst.
  inversion Hhead as [|? ? Hlt _]; subst.
  assert (Hprev : In previousElement array) by (apply Hincl; now left).
  assert (Hx : In x array) by (apply Hincl; right; now left).
  assert (Hne : x <> previousElement).
  { intros ->. exact (lt_asym _ _ Hprev Hprev Hlt Hlt). }
  destruct (Z.ltb_spec (comparefn x previousElement) 0) as [Hneg|Hpos].
  - apply comparefn_lt in Hneg; auto.
    exfalso. exact (lt_asym _ _ Hprev Hx Hlt Hneg).
  - f_equal. apply IH; [|exact Htail].
    intros y Hy. apply Hincl. now right.
Qed.

Lemma ArrayTimSort_fixed (work : list A) :
  incl work array ->
  StronglySorted lt work ->
  V8.ArrayTimSort comparefn work = work.
Proof.
  intros Hincl Hsorted. unfold V8.ArrayTimSort.
  destruct work as [|a [|b rest]]; [reflexivity | reflexivity |].
  cbn [length Nat.ltb Nat.leb V8.CountAndMakeRun].
  assert (Ha : In a array) by (apply Hincl; now left).
  assert (Hb : In b array) by (apply Hincl; right; now left).
  assert (Hab : lt a b).
  { inversion Hsorted as [|? ? _ Hhead]; subst.
    inversion Hhead; assumption. }
  assert (Hne : b <> a).
  { intros ->. exact (lt_asym _ _ Ha Ha Hab Hab). }
  destruct (Z.ltb_spec (comparefn b a) 0) as [Hneg|Hpos].
  - apply comparefn_lt in Hneg; auto.
    exfalso. exact (lt_asym _ _ Ha Hb Hab Hneg).
  - rewrite run_tail_whole.
    + change (2 + length rest)%nat with (length (a :: b :: rest)).
      now rewrite firstn_all, skipn_all.
    + intros y Hy. apply Hincl. now right.
    + inversion Hsorted; assumption.
Qed.

(** An array in the opposite order is one descending run: V8 reverses
    it. *)
Lemma run_tail_whole_descending (rest : list A) :
  forall previousElement,
    incl (previousElement :: rest) array ->
    StronglySorted (fun x y => lt y x) (previousElement :: rest) ->
    V8.run_tail comparefn true previousElement rest = length rest.
Proof.
  induction rest as [|x rest IH]; intros previousElement Hincl Hsorted;
    cbn [V8.run_tail length]; [reflexivity|].
  inversion Hsorted as [|? ? Htail Hhead]; subst.
  inversion Hhead as [|? ? Hlt _]; subst.
  assert (Hprev : In previousElement array) by (apply Hincl; now left).
  assert (Hx : In x array) by (apply Hincl; right; now left).
  assert (Hne : x <> previousElement).
  { intros ->. exact (lt_asym _ _ Hprev Hprev Hlt Hlt). }
  apply comparefn_lt in Hlt; auto.
  rewrite Z.geb_leb.
  destruct (Z.leb_spec 0 (comparefn x previousElement)); [lia|].
  f_equal. apply IH; [|exact Htail].
  intros y Hy. apply Hincl. now right.
Qed.

Lemma ArrayTimSort_reverses (work : list A) :
  incl work array ->
  StronglySorted (fun x y => lt y x) work ->
  V8.ArrayTimSort comparefn work = rev work.
Proof.
  intros Hincl Hsorted. unfold V8.ArrayTimSort.
  destruct work as [|a [|b rest]]; [reflexivity | reflexivity |].
  cbn [length Nat.ltb Nat.leb V8.CountAndMakeRun].
  assert (Ha : In a array) by (apply Hincl; now left).
  assert (Hb : In b array) by (apply Hincl; right; now left).
  assert (Hba : lt b a).
  { inversion Hsorted as [|? ? _ Hhead]; subst.
    inversion Hhead; assumption. }
  assert (Hne : b <> a).
  { intros ->. exact (lt_asym _ _ Ha Ha Hba Hba). }
  apply comparefn_lt in Hba; auto.
  replace (comparefn b a <? 0) with true
    by (symmetry; apply Z.ltb_lt; exact Hba).
  rewrite run_tail_whole_descending.
  - change (2 + length rest)%nat with (length (a :: b :: rest)).
    rewrite firstn_all, skipn_all, app_nil_r.
    rewrite <- length_rev at 1. rewrite firstn_all.
    rewrite <- length_rev. now rewrite skipn_all.
  - intros y Hy. apply Hincl. now right.
  - inversion Hsorted; assumption.
Qed.

End Ordered.

End V8Props.

(** ** Sorting by score *)

Module SortMore.

Import Api Search SortSpec Runtime V8Props.

Lemma score_lt_asym (a b : Publication) : score_lt a b -> ~ score_lt b a.
Proof.
  unfold score_lt, num_lt.
  destruct (score a) as [|x], (score b) as [|y]; try discriminate.
  rewrite <- (Qcompare_antisym x y). destruct (x ?= y)%Q; discriminate.
Qed.

Lemma score_lt_trans (a b c : Publication) :
  score_lt a b -> score_lt b c -> score_lt a c.
Proof.
  unfold score_lt, num_lt.
  destruct (score a) as [|x], (score b) as [|y], (score c) as [|z];
    try discriminate.
  destruct (x ?= y)%Q eqn:E1; try discriminate.
  destruct (y ?= z)%Q eqn:E2; try discriminate.
  intros _ _.
  assert (E : (x < z)%Q).
  { apply (Qlt_trans x y z); apply Qlt_alt; assumption. }
  now rewrite (proj1 (Qlt_alt x z) E).
Qed.

Lemma distinct_scores_NoDup (page : list Publication) :
  distinct_scores page -> NoDup page.
Proof.
  induction 1 as [|a l Hhead Htail IH]; constructor; [|exact IH].
  intros Hin. rewrite Forall_forall in Hhead.
  destruct (Hhead a Hin) as [H | H]; exact (score_lt_asym a a H H).
Qed.

Lemma distinct_scores_total (page : list Publication) (a b : Publication) :
  distinct_scores page ->
  In a page -> In b page -> a <> b -> score_lt a b \/ score_lt b a.
Proof.
  intros Hpage Ha Hb Hne.
  destruct (ForallOrdPairs_In Hpage a b Ha Hb) as [Heq | [H | H]];
    [contradiction | exact H | tauto].
Qed.

Section Comparator.
Context {env : Environment}.

(** On two results with different finite scores the comparator answers
    -1 exactly when the first is to come first. *)
Lemma compare_results_in_order (field : jsstring) (order : SortOrder)
  (a b : Publication) :
  by_score field ->
  score_lt a b \/ score_lt b a ->
  (compare_results field order a b < 0 <-> in_order order a b)
  /\ compare_results field order a b
     = (if num_lt (score a) (score b)
        then match order with asc => -1 | desc => 1 end
        else match order with asc => 1 | desc => -1 end).
Proof.
  intros [Hdate Htitle] Hdiff. unfold compare_results.
  rewrite Hdate, Htitle. unfold in_order, num_gt.
  destruct Hdiff as [Hab | Hba].
  - pose proof (score_lt_asym a b Hab) as Hnot.
    unfold score_lt in *. rewrite Hab.
    destruct (num_lt (score b) (score a)); [contradiction Hnot; reflexivity|].
    destruct order; (split; [split; intros; try lia; try congruence|]);
      reflexivity.
  - pose proof (score_lt_asym b a Hba) as Hnot.
    unfold score_lt in *. rewrite Hba.
    destruct (num_lt (score a) (score b)); [contradiction Hnot; reflexivity|].
    destruct order; (split; [split; intros; try lia; try congruence|]);
      reflexivity.
Qed.

(** X22. On two results whose scores are finite and different the
    comparator for a sort by score is antisymmetric, its answers for the
    two directions are opposite, and it answers -1 exactly when the
    first result is to come first; this holds in every engine. *)
Theorem comparator_consistent_on_distinct_scores (field : jsstring)
  (order : SortOrder) (a b : Publication) :
  by_score field ->
  score_lt a b \/ score_lt b a ->
  compare_results field order b a = - compare_results field order a b
  /\ compare_results field (opposite order) a b
     = - compare_results field order a b
  /\ (compare_results field order a b = -1 <-> in_order order a b).
Proof.
  intros Hfield Hdiff.
  assert (Hdiff' : score_lt b a \/ score_lt a b) by tauto.
  destruct (compare_results_in_order field order a b Hfield Hdiff)
    as [Hneg Hab].
  destruct (compare_results_in_order field order b a Hfield Hdiff')
    as [_ Hba].
  destruct (compare_results_in_order field (opposite order) a b Hfield Hdiff)
    as [_ Hopp].
  rewrite Hab, Hba, Hopp.
  assert (Hcases : (num_lt (score a) (score b) = true
                    /\ num_lt (score b) (score a) = false)
                   \/ (num_lt (score a) (score b) = false
                       /\ num_lt (score b) (score a) = true)).
  { destruct Hdiff as [H | H]; [left | right]; unfold score_lt in *;
      (split; [|]); try exact H;
      [pose proof (score_lt_asym a b H) as Hn
      |pose proof (score_lt_asym b a H) as Hn];
      unfold score_lt in Hn;
      match goal with |- ?x = false => destruct x; [contradiction Hn|] end;
      reflexivity. }
  unfold in_order, score_lt.
  destruct Hcases as [[-> ->] | [-> ->]]; destruct order; cbn;
    repeat split; intros; try reflexivity; try lia; try congruence.
Qed.

End Comparator.

(** The results after a sort are what the engine's sort returns. *)
Lemma sort_results {env : Environment} (field : jsstring) (order : SortOrder)
  (s : State) :
  results (fst (handleSortChange field order s)) =
  Array_sort Publication (compare_results field order) (results s).
Proof. destruct s. reflexivity. Qed.

Section UnderV8.
Context (parse : jsstring -> number) (lower : jsstring -> jsstring)
  (notify : bool).

Local Abbreviation v8 := (V8.environment parse lower notify).
Local Abbreviation sort := (@handleSortChange v8).

(** X23. Under V8 a sort of a page of fewer than 64 results (a single
    run) changes the order of the results only: for every field and
    direction, and whatever the comparator answers, the results after
    the sort are a permutation of the results before it, of the same
    length and with the same members. *)
Theorem sort_permutes_results (field : jsstring) (order : SortOrder)
  (s : State) :
  (length (results s) < 64)%nat ->
  Permutation (results (fst (sort field order s))) (results s)
  /\ length (results (fst (sort field order s))) = length (results s)
  /\ (forall p, In p (results (fst (sort field order s)))
                <-> In p (results s)).
Proof.
  intros _.
  assert (Hperm : Permutation (results (fst (sort field order s)))
                              (results s)).
  { rewrite sort_results. apply ArrayTimSort_permutation. }
  split; [exact Hperm|]. split; [now apply Permutation_length|].
  intros p. split; apply Permutation_in; [|symmetry]; exact Hperm.
Qed.

(** The hypotheses of the order lemmas, for a page of distinct scores. *)
Lemma sorted_by_score (field : jsstring) (order : SortOrder)
  (page : list Publication) :
  by_score field ->
  distinct_scores page ->
  StronglySorted (in_order order)
    (V8.ArrayTimSort (@compare_results v8 field order) page).
Proof.
  intros Hfield Hpage.
  apply (ArrayTimSort_sorted _ (in_order order) page).
  - now apply distinct_scores_NoDup.
  - intros x y Hx Hy Hne.
    apply (@compare_results_in_order v8); [exact Hfield|].
    now apply (distinct_scores_total page).
  - intros x y Hx Hy Hne.
    destruct (distinct_scores_total page x y Hpage Hx Hy Hne);
      destruct order; cbn; tauto.
  - intros x y z _ _ _. destruct order; cbn; intros H1 H2.
    + exact (score_lt_trans x y z H1 H2).
    + exact (score_lt_trans z y x H2 H1).
Qed.

(** X24. Under V8, sorting a page of fewer than 64 results whose scores
    are finite and pairwise different by relevance (or by any unknown
    field, which sorts by score) puts the results in strictly increasing
    order of score when ascending and in strictly decreasing order when
    descending. *)
Theorem distinct_scores_sorted (field : jsstring) (order : SortOrder)
  (s : State) :
  (length (results s) < 64)%nat ->
  by_score field ->
  distinct_scores (results s) ->
  StronglySorted (in_order order) (results (fst (sort field order s))).
Proof.
  intros _ Hfield Hpage. rewrite sort_results.
  now apply sorted_by_score.
Qed.

Lemma sorted_again (field : jsstring) (order order' : SortOrder)
  (page : list Publication) :
  by_score field ->
  distinct_scores page ->
  let once := V8.ArrayTimSort (@compare_results v8 field order) page in
  V8.ArrayTimSort (@compare_results v8 field order') once
  = if match order, order' with asc, asc | desc, desc => true | _, _ => false end
    then once else rev once.
Proof.
  intros Hfield Hpage once.
  assert (Hperm : Permutation once page)
    by apply ArrayTimSort_permutation.
  assert (Hincl : incl once page)
    by (intros x; apply Permutation_in; exact Hperm).
  assert (Hsorted : StronglySorted (in_order order) once)
    by now apply sorted_by_score.
  assert (Hcmp : forall x y, In x page -> In y page -> x <> y ->
                   (@compare_results v8 field order' x y < 0
                    <-> in_order order' x y)).
  { intros x y Hx Hy Hne.
    apply (@compare_results_in_order v8); [exact Hfield|].
    now apply (distinct_scores_total page). }
  assert (Hasym : forall x y, In x page -> In y page ->
                    in_order order' x y -> ~ in_order order' y x).
  { intros x y _ _. destruct order'; cbn; apply score_lt_asym. }
  destruct order, order'.
  - apply (ArrayTimSort_fixed _ (in_order asc) page); assumption.
  - apply (ArrayTimSort_reverses _ (in_order desc) page); assumption.
  - apply (ArrayTimSort_reverses _ (in_order asc) page); assumption.
  - apply (ArrayTimSort_fixed _ (in_order desc) page); assumption.
Qed.

(** X25. Under V8, on a page of fewer than 64 results whose scores are
    finite and pairwise different, sorting by score a second time with the same direction
    returns the same list. *)
Theorem distinct_scores_idempotent (field : jsstring) (order : SortOrder)
  (s : State) :
  (length (results s) < 64)%nat ->
  by_score field ->
  distinct_scores (results s) ->
  let once := fst (sort field order s) in
  results (fst (sort field order once)) = results once.
Proof.
  intros _ Hfield Hpage once. subst once. rewrite !sort_results.
  change (@Array_sort v8 Publication) with (@V8.ArrayTimSort Publication).
  rewrite (sorted_again field order order (results s) Hfield Hpage).
  destruct order; reflexivity.
Qed.

(** X26. Under V8, on a page of fewer than 64 results whose scores are
    finite and pairwise different, sorting by score in one direction and then in the other
    reverses the list exactly. *)
Theorem opposite_order_reverses (field : jsstring) (order : SortOrder)
  (s : State) :
  (length (results s) < 64)%nat ->
  by_score field ->
  distinct_scores (results s) ->
  let once := fst (sort field order s) in
  results (fst (sort field (opposite order) once)) = rev (results once).
Proof.
  intros _ Hfield Hpage once. subst once. rewrite !sort_results.
  change (@Array_sort v8 Publication) with (@V8.ArrayTimSort Publication).
  rewrite (sorted_again field order (opposite order) (results s)
             Hfield Hpage).
  destruct order; reflexivity.
Qed.

End UnderV8.


(** *** On the sample page *)

Import Samples.

Lemma sample_scores_distinct : distinct_scores [old_paper; new_paper].
Proof.
  constructor; [|constructor; constructor].
  constructor; [left; reflexivity | constructor].
Qed.

Lemma sample_field_by_score : by_score (lit "relevance").
Proof. split; reflexivity. Qed.

Lemma sample_single_run : (length (results ready) < 64)%nat.
Proof. cbn. lia. Qed.

Lemma comparator_consistent_on_distinct_scores_witness :
  score_lt old_paper new_paper
  /\ @compare_results chrome (lit "relevance") desc old_paper new_paper = 1
  /\ @compare_results chrome (lit "relevance") desc new_paper old_paper = -1
  /\ @compare_results chrome (lit "relevance") asc old_paper new_paper = -1.
Proof.
  assert (Hlt : score_lt old_paper new_paper) by reflexivity.
  split; [exact Hlt|].
  destruct (@comparator_consistent_on_distinct_scores chrome
              (lit "relevance") desc old_paper new_paper
              sample_field_by_score (or_introl Hlt))
    as (Hswap & Hflip & _).
  split; [reflexivity|]. split.
  - rewrite Hswap. reflexivity.
  - exact Hflip.
Defined.

Lemma sort_permutes_results_witness :
  (length (results ready) < 64)%nat
  /\ results (fst (@handleSortChange chrome (lit "title") asc ready))
     = [new_paper; old_paper]
  /\ Permutation [new_paper; old_paper] (results ready).
Proof.
  split; [exact sample_single_run|]. split; [reflexivity|].
  exact (proj1 (sort_permutes_results sample_parse ascii_lower true
                  (lit "title") asc ready sample_single_run)).
Defined.

Lemma distinct_scores_sorted_witness :
  ((length (results ready) < 64)%nat /\ distinct_scores (results ready))
  /\ results (fst (@handleSortChange chrome (lit "relevance") desc ready))
     = [new_paper; old_paper]
  /\ StronglySorted (in_order desc) [new_paper; old_paper].
Proof.
  split; [split; [exact sample_single_run | exact sample_scores_distinct]|].
  split; [reflexivity|].
  exact (distinct_scores_sorted sample_parse ascii_lower true
           (lit "relevance") desc ready sample_single_run
           sample_field_by_score
           sample_scores_distinct).
Defined.

Lemma distinct_scores_idempotent_witness :
  let once := fst (@handleSortChange chrome (lit "relevance") desc ready) in
  results once = [new_paper; old_paper]
  /\ results (fst (@handleSortChange chrome (lit "relevance") desc once))
     = [new_paper; old_paper].
Proof.
  intros once. split; [reflexivity|].
  exact (distinct_scores_idempotent sample_parse ascii_lower true
           (lit "relevance") desc ready sample_single_run
           sample_field_by_score
           sample_scores_distinct).
Defined.

Lemma opposite_order_reverses_witness :
  let once := fst (@handleSortChange chrome (lit "relevance") desc ready) in
  results once = [new_paper; old_paper]
  /\ results (fst (@handleSortChange chrome (lit "relevance") asc once))
     = [old_paper; new_paper].
Proof.
  intros once. split; [reflexivity|].
  exact (opposite_order_reverses sample_parse ascii_lower true
           (lit "relevance") desc ready sample_single_run
           sample_field_by_score
           sample_scores_distinct).
Defined.

End SortMore.
